(** * CycloneDX component-graph builder (pkg/sbom/cyclonedx/marshal.go)

    A shallow embedding of the marshaler that turns a scan [Report] into a
    graph of [core.Component] nodes, together with the properties of the
    graph that the design document states.

    Go pointers to components are addresses into an explicit heap, so that
    identity of nodes (as opposed to structural equality) can be stated.
    Go maps are [gmap]s; the order in which [range] enumerates a map is left
    to an explicit [RangeOrder]. *)

From Stdlib Require Import ZArith Ascii DecimalString DecimalZ DecimalPos Sorted.
From stdpp Require Import gmap strings list fin_maps.

(** ** Go's [(value, error)] results *)

Inductive outcome (A : Type) : Type :=
| Done (a : A)
| Failed (err : string).
Arguments Done {A} a.
Arguments Failed {A} err.

Definition is_failed {A} (o : outcome A) : bool :=
  match o with Failed _ => true | Done _ => false end.

(** [xerrors.Errorf (msg ++ ": %w") err] *)
Definition Errorf (msg err : string) : string := msg +:+ ": " +:+ err.

(** [strconv.Itoa] and [strconv.FormatInt _ 10] *)
Definition Itoa (n : Z) : string := NilZero.string_of_int (Z.to_int n).

(** [strings.Join] *)
Fixpoint Join (l : list string) (sep : string) : string :=
  match l with
  | [] => ""
  | [x] => x
  | x :: rest => x +:+ sep +:+ Join rest sep
  end.

(** [strings.HasPrefix] and [strings.TrimPrefix] *)
Fixpoint HasPrefix (s p : string) : bool :=
  match p, s with
  | EmptyString, _ => true
  | String a p', String b s' => if Ascii.eqb a b then HasPrefix s' p' else false
  | String _ _, EmptyString => false
  end.

Definition TrimPrefix (s p : string) : string :=
  if HasPrefix s p then String.substring (String.length p) (String.length s - String.length p) s
  else s.

(** ** Data model *)

Module packageurl.
Module PackageURL.
Record t := mk {
  Type_ : string;
  Namespace : string;
  Name : string;
  Version : string;
}.
End PackageURL.
Definition TypeMaven : string := "maven".
Definition TypeNPM : string := "npm".
End packageurl.

Module purl.
Module PackageURL.
Record t := mk {
  PackageURL : packageurl.PackageURL.t;
  FilePath : string;
}.
End PackageURL.
End purl.

Module ftypes.
Module Layer.
Record t := mk { Digest : string; DiffID : string }.
End Layer.

Module PkgIdentifier.
Record t := mk { PURL : option packageurl.PackageURL.t }.
End PkgIdentifier.

Module Package.
Record t := mk {
  ID : string;
  Name : string;
  Identifier : PkgIdentifier.t;
  Version : string;
  Release : string;
  Epoch : Z;
  SrcName : string;
  SrcVersion : string;
  SrcRelease : string;
  SrcEpoch : Z;
  Licenses : list string;
  Maintainer : string;
  Modularitylabel : string;
  Indirect : bool;
  DependsOn : list string;
  Layer : Layer.t;
  FilePath : string;
  Digest : string;
}.
(** [ftypes.Package{}] *)
Definition zero : t :=
  mk "" "" (PkgIdentifier.mk None) "" "" 0 "" "" "" 0 [] "" "" false []
     (Layer.mk "" "") "" "".
End Package.

Module OS.
Record t := mk { Family : string; Name : string }.
End OS.

Inductive ArtifactType :=
| ArtifactContainerImage
| ArtifactFilesystem
| ArtifactRepository
| ArtifactCycloneDX
| ArtifactVM
| ArtifactOther (name : string).

Module Property.
Record t := mk { Name : string; Value : string }.
End Property.

(** The metadata component of a CycloneDX document given as input *)
Module Component.
Record t := mk {
  Type_ : string;
  Name : string;
  Group : string;
  PackageURL : string;
  Properties : list Property.t;
}.
End Component.
End ftypes.

Module types.
Module DetectedVulnerability.
Record t := mk {
  VulnerabilityID : string;
  PkgID : string;
  PkgName : string;
  InstalledVersion : string;
}.
End DetectedVulnerability.

Module Metadata.
Record t := mk {
  Size : Z;
  OS : option ftypes.OS.t;
  ImageID : string;
  DiffIDs : list string;
  RepoTags : list string;
  RepoDigests : list string;
}.
End Metadata.

Module Result.
Record t := mk {
  Target : string;
  Class : string;
  Type_ : string;
  Packages : list ftypes.Package.t;
  Vulnerabilities : list DetectedVulnerability.t;
}.
End Result.

Module Report.
Record t := mk {
  SchemaVersion : Z;
  ArtifactName : string;
  ArtifactType : ftypes.ArtifactType;
  Metadata : Metadata.t;
  Results : list Result.t;
  (** [r.CycloneDX.Metadata.Component] *)
  CycloneDX : ftypes.Component.t;
}.
End Report.
End types.

(** A [*core.Component]: [Some a] is the address [a] of a node in the heap,
    [None] is Go's [nil]. *)
Abbreviation addr := nat.

Module core.
Module Property.
Record t := mk { Namespace : string; Name : string; Value : string }.
End Property.

Module Component.
Record t := mk {
  Type_ : string;
  Name : string;
  Group : string;
  Version : string;
  PackageURL : option purl.PackageURL.t;
  Licenses : list string;
  Hashes : list string;
  Supplier : string;
  Properties : list Property.t;
  Vulnerabilities : list types.DetectedVulnerability.t;
  Components : list (option addr);
}.
(** [core.Component{}] *)
Definition zero : t := mk "" "" "" "" None [] [] "" [] [] [].

(** Assignments to single fields *)
Definition with_Type (ty : string) (c : t) : t :=
  mk ty (Name c) (Group c) (Version c) (PackageURL c) (Licenses c)
     (Hashes c) (Supplier c) (Properties c) (Vulnerabilities c) (Components c).
Definition with_Name (name : string) (c : t) : t :=
  mk (Type_ c) name (Group c) (Version c) (PackageURL c) (Licenses c)
     (Hashes c) (Supplier c) (Properties c) (Vulnerabilities c) (Components c).
Definition with_Version (version : string) (c : t) : t :=
  mk (Type_ c) (Name c) (Group c) version (PackageURL c) (Licenses c)
     (Hashes c) (Supplier c) (Properties c) (Vulnerabilities c) (Components c).
Definition with_PackageURL (p : option purl.PackageURL.t) (c : t) : t :=
  mk (Type_ c) (Name c) (Group c) (Version c) p (Licenses c)
     (Hashes c) (Supplier c) (Properties c) (Vulnerabilities c) (Components c).
Definition with_Properties (props : list Property.t) (c : t) : t :=
  mk (Type_ c) (Name c) (Group c) (Version c) (PackageURL c) (Licenses c)
     (Hashes c) (Supplier c) props (Vulnerabilities c) (Components c).
Definition with_Components (cs : list (option addr)) (c : t) : t :=
  mk (Type_ c) (Name c) (Group c) (Version c) (PackageURL c) (Licenses c)
     (Hashes c) (Supplier c) (Properties c) (Vulnerabilities c) cs.
End Component.
End core.

(** [cdx.ComponentType] values (cyclonedx-go) *)
Module cdx.
Definition ComponentTypeApplication : string := "application".
Definition ComponentTypeContainer : string := "container".
Definition ComponentTypeLibrary : string := "library".
Definition ComponentTypeOS : string := "operating-system".
End cdx.

(** The marshaler's own [Package]: an [ftypes.Package] with the type of the
    result it was found in, the report metadata and its vulnerabilities. *)
Module Package.
Record t := mk {
  Package : ftypes.Package.t;
  Type_ : string;
  Metadata : types.Metadata.t;
  Vulnerabilities : list types.DetectedVulnerability.t;
}.
(** Fields promoted from the embedded [ftypes.Package] *)
Definition ID (p : t) : string := ftypes.Package.ID (Package p).
Definition Indirect (p : t) : bool := ftypes.Package.Indirect (Package p).
Definition DependsOn (p : t) : list string := ftypes.Package.DependsOn (Package p).
End Package.

(** ** Property names *)

Definition PropertySchemaVersion : string := "SchemaVersion".
Definition PropertyType : string := "Type".
Definition PropertyClass : string := "Class".
Definition PropertySize : string := "Size".
Definition PropertyImageID : string := "ImageID".
Definition PropertyRepoDigest : string := "RepoDigest".
Definition PropertyDiffID : string := "DiffID".
Definition PropertyRepoTag : string := "RepoTag".
Definition PropertyPkgID : string := "PkgID".
Definition PropertyPkgType : string := "PkgType".
Definition PropertySrcName : string := "SrcName".
Definition PropertySrcVersion : string := "SrcVersion".
Definition PropertySrcRelease : string := "SrcRelease".
Definition PropertySrcEpoch : string := "SrcEpoch".
Definition PropertyModularitylabel : string := "Modularitylabel".
Definition PropertyFilePath : string := "FilePath".
Definition PropertyLayerDigest : string := "LayerDigest".
Definition PropertyLayerDiffID : string := "LayerDiffID".

(** ** Collaborators outside this file

    Constants and functions of other packages of the repository that the
    marshaler uses; the development is parametric in them. *)

Class Externals := {
  (** [ftypes] target types *)
  NodePkg : string;
  PythonPkg : string;
  GemSpec : string;
  Jar : string;
  CondaPkg : string;
  (** [types] result classes *)
  ClassOSPkg : string;
  ClassLangPkg : string;
  (** [core.Namespace] *)
  Namespace : string;
  (** [purl.TypeOCI] *)
  TypeOCI : string;
  (** [utils.FormatVersion] *)
  FormatVersion : ftypes.Package.t → string;
  (** [purl.New] *)
  purl_New : string → types.Metadata.t → ftypes.Package.t →
             outcome (option purl.PackageURL.t);
  (** [purl.FromString] *)
  purl_FromString : string → outcome (option purl.PackageURL.t);
  (** [purl.WithPath] *)
  purl_WithPath : option packageurl.PackageURL.t → string →
                  option purl.PackageURL.t;
}.

(** ** Property filter and package conversion *)

Definition mkProp (name value : string) : core.Property.t :=
  core.Property.mk "" name value.

Definition filterProperties (props : list core.Property.t) : list core.Property.t :=
  List.filter
    (fun property =>
       negb (String.eqb (core.Property.Value property) ""
             || (String.eqb (core.Property.Name property) PropertySrcEpoch
                 && String.eqb (core.Property.Value property) "0")))
    props.

Section Conversion.
Context `{Externals}.

Definition pkgComponent (pkg : Package.t) : outcome (option core.Component.t) :=
    let p := Package.Package pkg in
    let name := ftypes.Package.Name p in
    let version := ftypes.Package.Version p in
    let group : string := "" in
    let '(name, version, group) :=
      match ftypes.PkgIdentifier.PURL (ftypes.Package.Identifier p) with
      | Some pu =>
          let version := packageurl.PackageURL.Version pu in
          if String.eqb (packageurl.PackageURL.Type_ pu) packageurl.TypeMaven
             || String.eqb (packageurl.PackageURL.Type_ pu) packageurl.TypeNPM
          then (packageurl.PackageURL.Name pu, version,
                packageurl.PackageURL.Namespace pu)
          else (name, version, group)
      | None => (name, version, group)
      end in
    let properties :=
      [ mkProp PropertyPkgID (ftypes.Package.ID p);
        mkProp PropertyPkgType (Package.Type_ pkg);
        mkProp PropertyFilePath (ftypes.Package.FilePath p);
        mkProp PropertySrcName (ftypes.Package.SrcName p);
        mkProp PropertySrcVersion (ftypes.Package.SrcVersion p);
        mkProp PropertySrcRelease (ftypes.Package.SrcRelease p);
        mkProp PropertySrcEpoch (Itoa (ftypes.Package.SrcEpoch p));
        mkProp PropertyModularitylabel (ftypes.Package.Modularitylabel p);
        mkProp PropertyLayerDigest (ftypes.Layer.Digest (ftypes.Package.Layer p));
        mkProp PropertyLayerDiffID (ftypes.Layer.DiffID (ftypes.Package.Layer p)) ] in
    Done (Some
      {| core.Component.Type_ := cdx.ComponentTypeLibrary;
         core.Component.Name := name;
         core.Component.Group := group;
         core.Component.Version := version;
         core.Component.PackageURL :=
           purl_WithPath (ftypes.PkgIdentifier.PURL (ftypes.Package.Identifier p))
                         (ftypes.Package.FilePath p);
         core.Component.Supplier := ftypes.Package.Maintainer p;
         core.Component.Licenses := ftypes.Package.Licenses p;
         core.Component.Hashes :=
           if String.eqb (ftypes.Package.Digest p) "" then []
           else [ftypes.Package.Digest p];
         core.Component.Properties := filterProperties properties;
         core.Component.Vulnerabilities := Package.Vulnerabilities pkg;
         core.Component.Components := [] |}).
End Conversion.


(** ** The heap of component nodes *)

Abbreviation heap := (list core.Component.t).
Abbreviation memo := (gmap string addr).

(** [&core.Component{...}]: the new node gets the next free address. *)
Definition alloc (c : core.Component.t) (h : heap) : addr * heap :=
  (length h, h ++ [c]).

(** [component.Components = append(component.Components, children...)] *)
Definition append_children (component : addr) (children : list (option addr))
    (h : heap) : heap :=
  alter (fun c =>
           core.Component.with_Components (core.Component.Components c ++ children) c)
        component h.

(** [component.Components = children] *)
Definition set_children (component : addr) (children : list (option addr))
    (h : heap) : heap :=
  alter (core.Component.with_Components children) component h.

Definition children (h : heap) (a : addr) : list (option addr) :=
  match h !! a with
  | Some c => core.Component.Components c
  | None => []
  end.

(** A node without its links to other nodes. *)
Definition own (c : core.Component.t) : core.Component.t :=
  core.Component.with_Components [] c.

(** ** Enumeration order of [range] over a map

    Go leaves the order in which [range] visits a map unspecified: an
    execution enumerates some permutation of the entries. *)

Record RangeOrder := {
  range : list (string * Package.t) → list (string * Package.t);
  range_perm : ∀ l, range l ≡ₚ l;
}.

Definition range_sorted : RangeOrder :=
  {| range := fun l => l; range_perm := fun l => reflexivity l |}.


(** ** Building the package graph *)

Abbreviation result_of A := (option (outcome A * (heap * memo))).

Section Graph.
(** The conversion of one package, [pkgComponent] in the marshaler. *)
Variable conv : Package.t → outcome (option core.Component.t).
Variable pkgs : gmap string Package.t.

(** The loop over [pkg.DependsOn] in [marshalPackage]; [rec] is the
    recursive call. *)
Fixpoint marshalDeps (rec : Package.t → heap * memo → result_of (option addr))
    (component : addr) (deps : list string) (st : heap * memo)
    : result_of (option addr) :=
  match deps with
  | [] => Some (Done (Some component), st)
  | dep :: deps' =>
      match pkgs !! dep with
      | None => marshalDeps rec component deps' st
      | Some childPkg =>
          match rec childPkg st with
          | None => None
          | Some (Failed err, st') =>
              Some (Failed (Errorf "failed to parse pkg" err), st')
          | Some (Done child, (h', components)) =>
              marshalDeps rec component deps'
                (append_children component [child] h', components)
          end
      end
  end.

(** [marshalPackage]; [None] when [fuel] nested calls do not suffice. *)
Fixpoint marshalPackage (fuel : nat) (pkg : Package.t) (st : heap * memo)
    : result_of (option addr) :=
  match fuel with
  | 0 => None
  | S fuel' =>
      let '(h, components) := st in
      match components !! Package.ID pkg with
      | Some c => Some (Done (Some c), st)
      | None =>
          match conv pkg with
          | Failed err => Some (Failed (Errorf "failed to parse pkg" err), st)
          | Done None => Some (Done None, st)
          | Done (Some component) =>
              let '(c, h') := alloc component h in
              marshalDeps (marshalPackage fuel') c (Package.DependsOn pkg)
                (h', <[Package.ID pkg := c]> components)
          end
      end
  end.

(** The loop over the package map in [marshalPackages], in the order [l]. *)
Fixpoint marshalRoots (fuel : nat) (parents : gmap string (gset string))
    (l : list (string * Package.t)) (directComponents : list (option addr))
    (h : heap) : option (outcome (list (option addr)) * heap) :=
  match l with
  | [] => Some (Done directComponents, h)
  | (_, pkg) :: l' =>
      if Package.Indirect pkg
         && negb (size (parents !!! Package.ID pkg) =? 0)
      then marshalRoots fuel parents l' directComponents h
      else
        match marshalPackage fuel pkg (h, ∅) with
        | None => None
        | Some (Failed _, (h', _)) => Some (Done [], h')
        | Some (Done (Some component), (h', _)) =>
            marshalRoots fuel parents l' (directComponents ++ [Some component]) h'
        | Some (Done None, (h', _)) =>
            marshalRoots fuel parents l' directComponents h'
        end
  end.
End Graph.

(** Modelled from the spec: [ftypes.Packages.ParentDeps] is not part of the
    marshaler's file.  It computes, for every package ID, the set of package
    IDs that declare it as a dependency, in one pass that inverts
    [DependsOn]. *)
Definition ParentDeps (pkgs : list ftypes.Package.t) : gmap string (gset string) :=
  foldl (fun parents pkg =>
           foldl (fun parents dependOn =>
                    <[dependOn := {[ftypes.Package.ID pkg]} ∪ parents !!! dependOn]> parents)
                 parents (ftypes.Package.DependsOn pkg))
        ∅ pkgs.

Section Marshaler.
Context `{Externals}.

Definition pkgID (pkg : ftypes.Package.t) : string :=
  if String.eqb (ftypes.Package.ID pkg) ""
  then ftypes.Package.Name pkg +:+ "@" +:+ FormatVersion pkg
  else ftypes.Package.ID pkg.

Definition vulnKey (v : types.DetectedVulnerability.t) : string :=
  if String.eqb (types.DetectedVulnerability.PkgID v) ""
  then types.DetectedVulnerability.PkgName v +:+ "@"
       +:+ types.DetectedVulnerability.InstalledVersion v
  else types.DetectedVulnerability.PkgID v.

(** [vulns[pkgID]] for [vulns := lo.GroupBy(result.Vulnerabilities, vulnKey)] *)
Definition vulnsOf (result : types.Result.t) (key : string)
    : list types.DetectedVulnerability.t :=
  List.filter (fun v => String.eqb (vulnKey v) key)
              (types.Result.Vulnerabilities result).

(** The [Package] that [marshalPackages] makes of a package of the result. *)
Definition wrapPackage (metadata : types.Metadata.t) (result : types.Result.t)
    (pkg : ftypes.Package.t) : Package.t :=
  {| Package.Type_ := types.Result.Type_ result;
     Package.Metadata := metadata;
     Package.Package := pkg;
     Package.Vulnerabilities := vulnsOf result (pkgID pkg) |}.

(** [lo.SliceToMap]: a later package replaces an earlier one with its key. *)
Definition packageMap (metadata : types.Metadata.t) (result : types.Result.t)
    : gmap string Package.t :=
  foldl (fun m pkg => <[pkgID pkg := wrapPackage metadata result pkg]> m)
        ∅ (types.Result.Packages result).

(** [marshalPackages], with the conversion of a package as a parameter: the
    function calls [pkgComponent], which reports no error for any package;
    the parameter makes the branches that handle its errors reachable. *)
Definition marshalPackagesWith (conv : Package.t → outcome (option core.Component.t))
    (o : RangeOrder) (fuel : nat) (metadata : types.Metadata.t)
    (result : types.Result.t) (h : heap)
    : option (outcome (list (option addr)) * heap) :=
  let parents := ParentDeps (types.Result.Packages result) in
  let pkgs := packageMap metadata result in
  marshalRoots conv pkgs fuel parents (range o (map_to_list pkgs)) [] h.

Definition marshalPackages (o : RangeOrder) (fuel : nat)
    (metadata : types.Metadata.t) (result : types.Result.t) (h : heap)
    : option (outcome (list (option addr)) * heap) :=
  marshalPackagesWith pkgComponent o fuel metadata result h.

(** The node that [resultComponent] builds. *)
Definition resultNode (r : types.Result.t) (osFound : option ftypes.OS.t)
    : core.Component.t :=
  let component :=
    core.Component.with_Properties
      [ mkProp PropertyType (types.Result.Type_ r);
        mkProp PropertyClass (types.Result.Class r) ]
      (core.Component.with_Name (types.Result.Target r) core.Component.zero) in
  if String.eqb (types.Result.Class r) ClassOSPkg then
    let component :=
      match osFound with
      | Some os =>
          core.Component.with_Version (ftypes.OS.Name os)
            (core.Component.with_Name (ftypes.OS.Family os) component)
      | None => component
      end in
    core.Component.with_Type cdx.ComponentTypeOS component
  else if String.eqb (types.Result.Class r) ClassLangPkg then
    core.Component.with_Type cdx.ComponentTypeApplication component
  else component.

Definition resultComponent (r : types.Result.t) (osFound : option ftypes.OS.t)
    (h : heap) : addr * heap :=
  alloc (resultNode r osFound) h.

(** The first test of [marshalResult]: a language package type that is
    not tied to a lock file. *)
Definition is_floating (result : types.Result.t) : bool :=
  let ty := types.Result.Type_ result in
  String.eqb ty NodePkg || String.eqb ty PythonPkg || String.eqb ty GemSpec
  || String.eqb ty Jar || String.eqb ty CondaPkg.

(** The second test of [marshalResult]. *)
Definition has_node (result : types.Result.t) : bool :=
  String.eqb (types.Result.Class result) ClassOSPkg
  || String.eqb (types.Result.Class result) ClassLangPkg.

Definition marshalResult (o : RangeOrder) (fuel : nat)
    (metadata : types.Metadata.t) (result : types.Result.t) (h : heap)
    : option (outcome (list (option addr)) * heap) :=
  if is_floating result
  then
    match marshalPackages o fuel metadata result h with
    | None => None
    | Some (Failed err, h') => Some (Failed err, h')
    | Some (Done components, h') => Some (Done components, h')
    end
  else if has_node result
  then
    let '(appComponent, h1) :=
      resultComponent result (types.Metadata.OS metadata) h in
    match marshalPackages o fuel metadata result h1 with
    | None => None
    | Some (Failed err, h') => Some (Failed err, h')
    | Some (Done components, h') =>
        Some (Done [Some appComponent], set_children appComponent components h')
    end
  else Some (Done [], h).

(** [toCoreComponent]: the node for the metadata component of a CycloneDX
    document. *)
Definition toCoreComponent (c : ftypes.Component.t) : outcome core.Component.t :=
  let props :=
    List.map (fun prop =>
                let name := ftypes.Property.Name prop in
                if HasPrefix name Namespace
                then core.Property.mk Namespace (TrimPrefix name Namespace)
                                      (ftypes.Property.Value prop)
                else core.Property.mk "" name (ftypes.Property.Value prop))
             (ftypes.Component.Properties c) in
  let mk p :=
    core.Component.with_Properties props
      (core.Component.with_PackageURL p
         (core.Component.with_Type (ftypes.Component.Type_ c)
            (core.Component.mk "" (ftypes.Component.Name c)
               (ftypes.Component.Group c) "" None [] [] "" [] [] []))) in
  if String.eqb (ftypes.Component.PackageURL c) "" then Done (mk None)
  else
    match purl_FromString (ftypes.Component.PackageURL c) with
    | Failed err => Failed (Errorf "failed to parse purl" err)
    | Done p => Done (mk p)
    end.

(** [rootComponent].  The node is local to the function until it is
    returned, so it is built as a value and placed in the heap on success. *)
Definition rootComponent (r : types.Report.t) (h : heap)
    : outcome addr * heap :=
  let root := core.Component.with_Name (types.Report.ArtifactName r)
                core.Component.zero in
  let props := [ mkProp PropertySchemaVersion (Itoa (types.Report.SchemaVersion r)) ] in
  let metadata := types.Report.Metadata r in
  let finish (root : core.Component.t) (props : list core.Property.t) :=
    let props :=
      if (types.Metadata.Size metadata =? 0)%Z then props
      else props ++ [ mkProp PropertySize (Itoa (types.Metadata.Size metadata)) ] in
    let props :=
      if 0 <? length (types.Metadata.RepoDigests metadata)
      then props ++ [ mkProp PropertyRepoDigest
                        (Join (types.Metadata.RepoDigests metadata) ",") ]
      else props in
    let props :=
      if 0 <? length (types.Metadata.DiffIDs metadata)
      then props ++ [ mkProp PropertyDiffID
                        (Join (types.Metadata.DiffIDs metadata) ",") ]
      else props in
    let props :=
      if 0 <? length (types.Metadata.RepoTags metadata)
      then props ++ [ mkProp PropertyRepoTag
                        (Join (types.Metadata.RepoTags metadata) ",") ]
      else props in
    let '(a, h') :=
      alloc (core.Component.with_Properties (filterProperties props) root) h in
    (Done a, h') in
  match types.Report.ArtifactType r with
  | ftypes.ArtifactContainerImage =>
      let root := core.Component.with_Type cdx.ComponentTypeContainer root in
      let props := props ++ [ mkProp PropertyImageID (types.Metadata.ImageID metadata) ] in
      match purl_New TypeOCI metadata ftypes.Package.zero with
      | Failed err => (Failed (Errorf "failed to new package url for oci" err), h)
      | Done (Some p) => finish (core.Component.with_PackageURL (Some p) root) props
      | Done None => finish root props
      end
  | ftypes.ArtifactVM =>
      finish (core.Component.with_Type cdx.ComponentTypeContainer root) props
  | ftypes.ArtifactFilesystem | ftypes.ArtifactRepository =>
      finish (core.Component.with_Type cdx.ComponentTypeApplication root) props
  | ftypes.ArtifactCycloneDX =>
      match toCoreComponent (types.Report.CycloneDX r) with
      | Failed err => (Failed err, h)
      | Done c => let '(a, h') := alloc c h in (Done a, h')
      end
  | ftypes.ArtifactOther _ => finish root props
  end.

(** The loop over [r.Results] in [MarshalReport]; [i] is the index of the
    next result, and [o i] the order in which its package map is ranged. *)
Fixpoint marshalResults (o : nat → RangeOrder) (fuel : nat)
    (metadata : types.Metadata.t) (root : addr) (i : nat)
    (results : list types.Result.t) (h : heap) : option (outcome addr * heap) :=
  match results with
  | [] => Some (Done root, h)
  | result :: results' =>
      match marshalResult (o i) fuel metadata result h with
      | None => None
      | Some (Failed err, h') => Some (Failed err, h')
      | Some (Done components, h') =>
          marshalResults o fuel metadata root (S i) results'
            (append_children root components h')
      end
  end.

Definition MarshalReport (o : nat → RangeOrder) (fuel : nat)
    (r : types.Report.t) (h : heap) : option (outcome addr * heap) :=
  match rootComponent r h with
  | (Failed err, h') => Some (Failed err, h')
  | (Done root, h') =>
      marshalResults o fuel (types.Report.Metadata r) root 0
        (types.Report.Results r) h'
  end.
End Marshaler.

(** ** Unfolding the graph below a node

    The graph may be cyclic; [unfold n h p] is the tree of what is reachable
    from [p] in at most [n] steps, with the links replaced by the subtrees. *)

Inductive Tree :=
| TNil
| TCut
| TDangling
| TNode (c : core.Component.t) (subtrees : list Tree).

Fixpoint unfold (n : nat) (h : heap) (p : option addr) : Tree :=
  match p with
  | None => TNil
  | Some a =>
      match n with
      | 0 => TCut
      | S n' =>
          match h !! a with
          | None => TDangling
          | Some c => TNode (own c) (List.map (unfold n' h) (core.Component.Components c))
          end
      end
  end.

(** Moving a piece of heap [k] addresses up. *)
Definition shiftC (k : nat) (c : core.Component.t) : core.Component.t :=
  core.Component.with_Components
    (List.map (fmap (Nat.add k)) (core.Component.Components c)) c.

Definition shiftR (k : nat) (r : outcome (option addr)) : outcome (option addr) :=
  match r with
  | Done p => Done (Nat.add k <$> p)
  | Failed err => Failed err
  end.

(** * Properties of the traversal *)

Section GraphFacts.
Variable conv : Package.t → outcome (option core.Component.t).
Variable pkgs : gmap string Package.t.

Lemma marshalDeps_mono rec rec' :
  (∀ pkg st r, rec pkg st = Some r → rec' pkg st = Some r) →
  ∀ deps c st r,
    marshalDeps pkgs rec c deps st = Some r →
    marshalDeps pkgs rec' c deps st = Some r.
Proof.
  intros Hrec deps. induction deps as [|dep deps IH]; intros c st r; simpl; [done|].
  destruct (pkgs !! dep) as [childPkg|]; [|by apply IH].
  destruct (rec childPkg st) as [[[child|err] [h' m']]|] eqn:E; [| |done].
  - rewrite (Hrec _ _ _ E). apply IH.
  - by rewrite (Hrec _ _ _ E).
Qed.

Lemma marshalPackage_mono n n' pkg st r :
  n ≤ n' →
  marshalPackage conv pkgs n pkg st = Some r →
  marshalPackage conv pkgs n' pkg st = Some r.
Proof.
  revert n' pkg st r. induction n as [|n IH]; intros n' pkg [h m] r Hle; [done|].
  destruct n' as [|n']; [lia|]. simpl.
  destruct (m !! Package.ID pkg); [done|].
  destruct (conv pkg) as [[component|]|]; try done.
  apply marshalDeps_mono. intros pkg' st' r'. apply IH. lia.
Qed.


End GraphFacts.

(** ** Invariants of the store *)

Definition memo_valid (n : nat) (m : memo) : Prop :=
  ∀ i a, m !! i = Some a → a < n.

Definition heap_closed (h : heap) : Prop :=
  ∀ a c b, h !! a = Some c → Some b ∈ core.Component.Components c → b < length h.

(** How the memo map changes while the heap grows from [n] to [n'] nodes:
    entries are only added, and the added entries are in one-to-one
    correspondence with the new addresses. *)
Definition memo_grows (n : nat) (m : memo) (n' : nat) (m' : memo) : Prop :=
  m ⊆ m' ∧ n ≤ n' ∧
  (∀ i a, m' !! i = Some a → m !! i = None → n ≤ a < n') ∧
  (∀ a, n ≤ a < n' → ∃ i, m' !! i = Some a ∧ m !! i = None) ∧
  (∀ i j a, m' !! i = Some a → m' !! j = Some a → n ≤ a → i = j).

Lemma memo_grows_refl n m : memo_valid n m → memo_grows n m n m.
Proof.
  intros Hv. split_and!; [done|done|..].
  - intros i a Hi Hn. congruence.
  - intros a Ha. lia.
  - intros i j a Hi Hj Ha. apply Hv in Hi. lia.
Qed.

Lemma memo_grows_trans n m n1 m1 n2 m2 :
  memo_grows n m n1 m1 → memo_grows n1 m1 n2 m2 → memo_grows n m n2 m2.
Proof.
  intros (Hs1 & Hl1 & Hn1 & Hc1 & Hi1) (Hs2 & Hl2 & Hn2 & Hc2 & Hi2).
  split_and!.
  - by etrans.
  - lia.
  - intros i a Hi Hm. destruct (m1 !! i) as [a'|] eqn:E.
    + assert (a' = a) as ->.
      { pose proof (lookup_weaken _ _ _ _ E Hs2). congruence. }
      specialize (Hn1 _ _ E Hm). lia.
    + specialize (Hn2 _ _ Hi E). lia.
  - intros a Ha. destruct (decide (a < n1)) as [Hlt|Hge].
    + destruct (Hc1 a) as (i & Hi & Hm); [lia|]. exists i. split; [|done].
      by eapply lookup_weaken.
    + destruct (Hc2 a) as (i & Hi & Hm); [lia|]. exists i. split; [done|].
      destruct (m !! i) eqn:E; [|done].
      pose proof (lookup_weaken _ _ _ _ E Hs1). congruence.
  - intros i j a Hi Hj Ha. destruct (decide (a < n1)) as [Hlt|Hge].
    + assert (∀ k, m2 !! k = Some a → m1 !! k = Some a) as Hback.
      { intros k Hk. destruct (m1 !! k) as [a'|] eqn:E.
        - pose proof (lookup_weaken _ _ _ _ E Hs2). congruence.
        - specialize (Hn2 _ _ Hk E). lia. }
      eapply Hi1; eauto.
    + eapply Hi2; eauto. lia.
Qed.

Lemma memo_grows_alloc n (m : memo) i :
  memo_valid n m → m !! i = None → memo_grows n m (S n) (<[i := n]> m).
Proof.
  intros Hv Hi. split_and!.
  - by apply insert_subseteq.
  - lia.
  - intros j a Hj Hm. destruct (decide (i = j)) as [->|Hne].
    + rewrite lookup_insert_eq in Hj. simplify_eq. lia.
    + rewrite lookup_insert_ne in Hj by done. congruence.
  - intros a Ha. exists i. assert (a = n) as -> by lia.
    by rewrite lookup_insert_eq.
  - intros j1 j2 a H1 H2 Ha.
    assert (∀ j, <[i := n]> m !! j = Some a → j = i) as Hk.
    { intros j Hj. destruct (decide (i = j)) as [->|Hne]; [done|].
      rewrite lookup_insert_ne in Hj by done. apply Hv in Hj. lia. }
    by rewrite (Hk _ H1), (Hk _ H2).
Qed.

Lemma memo_grows_valid n m n' m' :
  memo_valid n m → memo_grows n m n' m' → memo_valid n' m'.
Proof.
  intros Hv (Hs & Hl & Hn & _) i a Hi.
  destruct (m !! i) as [a'|] eqn:E.
  - pose proof (lookup_weaken _ _ _ _ E Hs). apply Hv in E. simplify_eq. lia.
  - specialize (Hn _ _ Hi E). lia.
Qed.

Lemma append_children_length c cs (h : heap) :
  length (append_children c cs h) = length h.
Proof. apply length_alter. Qed.

Lemma append_children_app c cs (h hs : heap) :
  c < length h →
  append_children c cs (h ++ hs) = append_children c cs h ++ hs.
Proof. intros Hc. by apply alter_app_l. Qed.

Lemma append_children_twice c cs1 cs2 (h : heap) :
  append_children c cs2 (append_children c cs1 h) = append_children c (cs1 ++ cs2) h.
Proof.
  unfold append_children. rewrite list_alter_alter_eq.
  apply list_alter_ext; [|done]. intros [] _. simpl.
  unfold core.Component.with_Components. simpl. by rewrite app_assoc.
Qed.

Lemma append_children_nil c (h : heap) : append_children c [] h = h.
Proof.
  unfold append_children. apply list_eq. intros a.
  rewrite list_lookup_alter. case_decide; [subst|done].
  destruct (h !! a) as [[]|]; [|done]. simpl.
  unfold core.Component.with_Components. simpl. by rewrite app_nil_r.
Qed.

Lemma append_children_closed c cs (h : heap) :
  heap_closed h → (∀ b, Some b ∈ cs → b < length h) →
  heap_closed (append_children c cs h).
Proof.
  intros Hh Hcs a x b Ha Hb. rewrite append_children_length.
  unfold append_children in Ha. rewrite list_lookup_alter in Ha.
  case_decide; [subst|by eapply Hh].
  destruct (h !! a) as [y|] eqn:E; [|done]. simpl in Ha. simplify_eq.
  simpl in Hb. apply elem_of_app in Hb as [Hb|Hb]; [by eapply Hh|by apply Hcs].
Qed.

Lemma heap_closed_alloc (h : heap) c :
  heap_closed h → core.Component.Components c = [] → heap_closed (h ++ [c]).
Proof.
  intros Hh Hc a x b Ha Hb. rewrite length_app. simpl.
  apply lookup_app_Some in Ha as [Ha|[Hl Ha]].
  - specialize (Hh _ _ _ Ha Hb). lia.
  - apply list_lookup_singleton_Some in Ha as [_ <-]. rewrite Hc in Hb.
    by apply elem_of_nil in Hb.
Qed.

Section Invariants.
Variable conv : Package.t → outcome (option core.Component.t).
Variable pkgs : gmap string Package.t.
(** A converted package has no children yet. *)
Hypothesis conv_leaf :
  ∀ pkg c, conv pkg = Done (Some c) → core.Component.Components c = [].

(** What a call of [marshalPackage] guarantees: nodes that existed before
    are untouched, and the call returns what the memo map holds for the
    package afterwards. *)
Definition call_ok (rec : Package.t → heap * memo → result_of (option addr)) : Prop :=
  ∀ pkg h m r h' m',
    memo_valid (length h) m → heap_closed h →
    rec pkg (h, m) = Some (r, (h', m')) →
    (∃ hs, h' = h ++ hs) ∧ heap_closed h' ∧
    memo_grows (length h) m (length h') m' ∧
    (∀ x, r = Done x → x = m' !! Package.ID pkg).

Lemma marshalDeps_inv rec :
  call_ok rec →
  ∀ deps c h m r h' m',
    memo_valid (length h) m → heap_closed h → c < length h →
    marshalDeps pkgs rec c deps (h, m) = Some (r, (h', m')) →
    (∃ cs hs, h' = append_children c cs h ++ hs) ∧ heap_closed h' ∧
    memo_grows (length h) m (length h') m' ∧
    (∀ x, r = Done x → x = Some c).
Proof.
  intros Hrec deps. induction deps as [|dep deps IH];
    intros c h m r h' m' Hv Hh Hc Hrun; simpl in Hrun.
  { simplify_eq. split_and!; [|done|by apply memo_grows_refl|by intros ? [= <-]].
    exists [], []. by rewrite append_children_nil, app_nil_r. }
  destruct (pkgs !! dep) as [childPkg|]; [|by eapply IH].
  destruct (rec childPkg (h, m)) as [[r1 [h1 m1]]|] eqn:E; [|done].
  destruct (Hrec _ _ _ _ _ _ Hv Hh E) as ([hs1 ->] & Hh1 & Hg1 & Hr1).
  destruct r1 as [child|err].
  - assert (memo_valid (length (h ++ hs1)) m1) as Hv1 by by eapply memo_grows_valid.
    apply IH in Hrun as ((cs & hs & ->) & Hh' & Hg' & Hr').
    + split_and!; [|done| |done].
      * exists (child :: cs), (hs1 ++ hs).
        rewrite append_children_twice, append_children_app by done.
        by rewrite <-app_assoc.
      * eapply memo_grows_trans; [done|].
        by rewrite append_children_length in Hg'.
    + by rewrite append_children_length.
    + apply append_children_closed; [done|].
      intros b Hb. apply list_elem_of_singleton in Hb.
      specialize (Hr1 _ eq_refl). rewrite <-Hb in Hr1. symmetry in Hr1. by apply Hv1 in Hr1.
    + rewrite append_children_length, length_app. lia.
  - simplify_eq. split_and!; [|done|done|done].
    exists [], hs1. by rewrite append_children_nil.
Qed.

Lemma marshalPackage_inv fuel : call_ok (marshalPackage conv pkgs fuel).
Proof.
  induction fuel as [|fuel IH]; intros pkg h m r h' m' Hv Hh Hrun; [done|].
  simpl in Hrun. destruct (m !! Package.ID pkg) as [c|] eqn:Em.
  { simplify_eq. split_and!; [exists []; by rewrite app_nil_r|done|
      by apply memo_grows_refl|by intros ? [= <-]]. }
  destruct (conv pkg) as [[component|]|] eqn:Ec.
  - apply (marshalDeps_inv _ IH) in Hrun as ((cs & hs & ->) & Hh' & Hg' & Hr').
    + split_and!; [| done | |].
      * exists (append_children 0 cs [component] ++ hs).
        rewrite app_assoc. f_equal.
        unfold append_children. by rewrite <-(Nat.add_0_r (length h)), alter_app_r.
      * eapply memo_grows_trans; [by apply memo_grows_alloc|].
        by rewrite length_app, Nat.add_1_r in Hg'.
      * intros x Hx. rewrite (Hr' _ Hx). symmetry.
        destruct Hg' as (Hs & _). eapply lookup_weaken; [|done].
        by rewrite lookup_insert_eq.
    + rewrite length_app, Nat.add_1_r.
      eapply memo_grows_valid; [done|]. by apply memo_grows_alloc.
    + apply heap_closed_alloc; [done|]. by eapply conv_leaf.
    + rewrite length_app. simpl. lia.
  - simplify_eq. split_and!; [exists []; by rewrite app_nil_r|done|
      by apply memo_grows_refl|by intros ? [= <-]].
  - simplify_eq. split_and!; [exists []; by rewrite app_nil_r|done|
      by apply memo_grows_refl|done].
Qed.

(** *** Termination

    Every call that does not return at once registers an ID that was not
    registered before, and only IDs of packages of the map are registered:
    the number of unregistered IDs bounds the depth of the recursion. *)
Definition pkg_ids : gset string := map_img (Package.ID <$> pkgs).

Definition unvisited (m : memo) : nat := size (pkg_ids ∖ dom m).

Lemma pkg_ids_spec pkg k : pkgs !! k = Some pkg → Package.ID pkg ∈ pkg_ids.
Proof.
  intros Hk. unfold pkg_ids. apply elem_of_map_img. exists k.
  by rewrite lookup_fmap, Hk.
Qed.

Lemma unvisited_mono (m m' : memo) : m ⊆ m' → unvisited m' ≤ unvisited m.
Proof.
  intros Hs. unfold unvisited. apply subseteq_size.
  apply (subseteq_dom (D:=gset string)) in Hs. set_solver.
Qed.

Lemma unvisited_insert (m : memo) pkg k c :
  pkgs !! k = Some pkg → m !! Package.ID pkg = None →
  unvisited (<[Package.ID pkg := c]> m) < unvisited m.
Proof.
  intros Hk Hm. unfold unvisited. apply subset_size. apply pkg_ids_spec in Hk.
  apply not_elem_of_dom in Hm. rewrite dom_insert_L. set_solver.
Qed.

Lemma pkg_ids_size : size pkg_ids ≤ size pkgs.
Proof.
  unfold pkg_ids. rewrite <-(map_size_fmap Package.ID pkgs).
  generalize (Package.ID <$> pkgs). intros ids.
  induction ids as [|i x ids Hi IH] using map_ind.
  - by rewrite map_img_empty_L, size_empty.
  - rewrite map_size_insert_None by done.
    trans (size ({[x]} ∪ map_img ids : gset string)).
    + apply subseteq_size, map_img_insert_subseteq.
    + rewrite size_union_alt, size_singleton.
      assert (size (map_img ids ∖ {[x]} : gset string) ≤ size (map_img ids : gset string));
        [|lia].
      apply subseteq_size. set_solver.
Qed.

Lemma marshalDeps_terminates rec n :
  call_ok rec →
  (∀ pkg k h m, pkgs !! k = Some pkg →
     memo_valid (length h) m → heap_closed h → unvisited m < n →
     is_Some (rec pkg (h, m))) →
  ∀ deps c h m,
    memo_valid (length h) m → heap_closed h → c < length h → unvisited m < n →
    is_Some (marshalDeps pkgs rec c deps (h, m)).
Proof.
  intros Hok Hrec deps. induction deps as [|dep deps IH];
    intros c h m Hv Hh Hc Hn; simpl; [done|].
  destruct (pkgs !! dep) as [childPkg|] eqn:Ed; [|by apply IH].
  destruct (Hrec _ _ _ _ Ed Hv Hh Hn) as [[r1 [h1 m1]] E]. rewrite E.
  destruct (Hok _ _ _ _ _ _ Hv Hh E) as ([hs1 ->] & Hh1 & Hg1 & Hr1).
  destruct r1 as [child|err]; [|done].
  assert (memo_valid (length (h ++ hs1)) m1) as Hv1 by by eapply memo_grows_valid.
  apply IH.
  - by rewrite append_children_length.
  - apply append_children_closed; [done|].
    intros b Hb. apply list_elem_of_singleton in Hb.
    specialize (Hr1 _ eq_refl). rewrite <-Hb in Hr1. symmetry in Hr1. by apply Hv1 in Hr1.
  - rewrite append_children_length, length_app. lia.
  - destruct Hg1 as (Hs & _). pose proof (unvisited_mono _ _ Hs). lia.
Qed.

Lemma marshalPackage_terminates fuel pkg k h m :
  pkgs !! k = Some pkg →
  memo_valid (length h) m → heap_closed h → unvisited m < fuel →
  is_Some (marshalPackage conv pkgs fuel pkg (h, m)).
Proof.
  revert pkg k h m. induction fuel as [|fuel IH]; intros pkg k h m Hk Hv Hh Hn; [lia|].
  simpl. destruct (m !! Package.ID pkg) as [c|] eqn:Em; [done|].
  destruct (conv pkg) as [[component|]|] eqn:Ec; [|done|done].
  apply (marshalDeps_terminates _ fuel).
  - apply marshalPackage_inv.
  - intros. by eapply IH.
  - rewrite length_app, Nat.add_1_r.
    eapply memo_grows_valid; [done|]. by apply memo_grows_alloc.
  - apply heap_closed_alloc; [done|]. by eapply conv_leaf.
  - rewrite length_app. simpl. lia.
  - pose proof (unvisited_insert m pkg k (length h) Hk Em). lia.
Qed.

(** From an empty memo map, one more nested call than there are packages
    is enough. *)
Lemma marshalPackage_root_terminates fuel pkg k h :
  pkgs !! k = Some pkg → heap_closed h → size pkgs < fuel →
  is_Some (marshalPackage conv pkgs fuel pkg (h, ∅)).
Proof.
  intros Hk Hh Hn. eapply marshalPackage_terminates; [done| |done|].
  - intros i a. by rewrite lookup_empty.
  - unfold unvisited. pose proof pkg_ids_size.
    assert (size (pkg_ids ∖ dom (∅ : memo)) ≤ size pkg_ids); [|lia].
    apply subseteq_size. set_solver.
Qed.

(** *** Independence of the position in the heap

    A traversal only reads the memo map and the nodes it creates itself: run
    on top of a heap [h], it builds the same nodes as on the empty heap,
    moved up by the size of [h]. *)
Lemma shiftC_leaf k c : core.Component.Components c = [] → shiftC k c = c.
Proof. destruct c. simpl. intros ->. done. Qed.

Lemma shiftC_append k c (cs : list (option addr)) (h hs : heap) :
  append_children (length h + c) (fmap (M:=option) (Nat.add k) <$> cs)
    (h ++ (shiftC k <$> hs))
  = h ++ (shiftC k <$> append_children c cs hs).
Proof.
  unfold append_children. rewrite alter_app_r. f_equal.
  symmetry. apply list_fmap_alter. apply Forall_forall. intros [] _.
  unfold shiftC, core.Component.with_Components. simpl.
  f_equal. by rewrite map_app.
Qed.

Definition reloc_ok (rec : Package.t → heap * memo → result_of (option addr)) : Prop :=
  ∀ pkg hs m r hs' m' (h : heap),
    rec pkg (hs, m) = Some (r, (hs', m')) →
    rec pkg (h ++ (shiftC (length h) <$> hs), Nat.add (length h) <$> m)
    = Some (shiftR (length h) r,
            (h ++ (shiftC (length h) <$> hs'), Nat.add (length h) <$> m')).

Lemma marshalDeps_reloc rec :
  reloc_ok rec →
  ∀ deps c hs m r hs' m' (h : heap),
    marshalDeps pkgs rec c deps (hs, m) = Some (r, (hs', m')) →
    marshalDeps pkgs rec (length h + c) deps
      (h ++ (shiftC (length h) <$> hs), Nat.add (length h) <$> m)
    = Some (shiftR (length h) r,
            (h ++ (shiftC (length h) <$> hs'), Nat.add (length h) <$> m')).
Proof.
  intros Hrec deps. induction deps as [|dep deps IH];
    intros c hs m r hs' m' h Hrun; simpl in *.
  { by simplify_eq. }
  destruct (pkgs !! dep) as [childPkg|]; [|by apply IH].
  destruct (rec childPkg (hs, m)) as [[r1 [h1 m1]]|] eqn:E; [|done].
  rewrite (Hrec _ _ _ _ _ _ h E).
  destruct r1 as [child|err]; simpl; [|by simplify_eq].
  apply (IH _ _ _ _ _ _ h) in Hrun. rewrite <-Hrun. do 2 f_equal.
  apply (shiftC_append (length h) c [child]).
Qed.

Lemma marshalPackage_reloc fuel : reloc_ok (marshalPackage conv pkgs fuel).
Proof.
  induction fuel as [|fuel IH]; intros pkg hs m r hs' m' h Hrun; [done|].
  simpl in *. rewrite lookup_fmap.
  destruct (m !! Package.ID pkg) as [c|] eqn:Em; simpl; [by simplify_eq|].
  destruct (conv pkg) as [[component|]|] eqn:Ec; [|by simplify_eq..].
  apply (marshalDeps_reloc _ IH _ _ _ _ _ _ _ h) in Hrun. rewrite <-Hrun.
  rewrite length_app, length_fmap, fmap_app, fmap_insert, app_assoc. simpl.
  by rewrite (shiftC_leaf _ component) by by eapply conv_leaf.
Qed.
End Invariants.

(** ** Sharing inside one traversal *)

Section Sharing.
Variable conv : Package.t → outcome (option core.Component.t).
Variable pkgs : gmap string Package.t.
Hypothesis conv_leaf :
  ∀ pkg c, conv pkg = Done (Some c) → core.Component.Components c = [].
(** The conversion always yields a node, as [pkgComponent] does. *)
Hypothesis conv_total : ∀ pkg, ∃ c, conv pkg = Done (Some c).

(** The packages that the dependency edges [deps] lead to; edges to
    packages outside the map are dropped. *)
Definition resolved (deps : list string) : list Package.t :=
  omap (fun dep => pkgs !! dep) deps.

(** The links [cs] are the nodes that the memo map holds for [Ys]. *)
Definition linked (m : memo) (cs : list (option addr)) (Ys : list Package.t) : Prop :=
  Forall2 (fun x Y => ∃ b, x = Some b ∧ m !! Package.ID Y = Some b) cs Ys.

(** The node at [a] is the finished node of package [X]. *)
Definition node_ok (h : heap) (m : memo) (a : addr) (X : Package.t) : Prop :=
  ∃ component c,
    conv X = Done (Some component) ∧ h !! a = Some c ∧ own c = own component ∧
    linked m (core.Component.Components c) (resolved (Package.DependsOn X)).

Lemma linked_mono (m m' : memo) cs Ys : m ⊆ m' → linked m cs Ys → linked m' cs Ys.
Proof.
  intros Hs Hl. eapply Forall2_impl; [done|]. intros x Y (b & -> & Hb). exists b.
  split; [done|]. by eapply lookup_weaken.
Qed.

Lemma node_ok_mono (h h' : heap) (m m' : memo) a X :
  m ⊆ m' → h' !! a = h !! a → node_ok h m a X → node_ok h' m' a X.
Proof.
  intros Hs Ha (component & c & Hc & Hl & Ho & Hk).
  exists component, c. split_and!; [done|congruence|done|by eapply linked_mono].
Qed.

Definition share_ok (rec : Package.t → heap * memo → result_of (option addr)) : Prop :=
  ∀ pkg k h m r h' m',
    pkgs !! k = Some pkg → memo_valid (length h) m → heap_closed h →
    rec pkg (h, m) = Some (r, (h', m')) →
    (∃ a, r = Done (Some a)) ∧
    (∀ i a, m !! i = None → m' !! i = Some a →
       ∃ X k', pkgs !! k' = Some X ∧ Package.ID X = i ∧ node_ok h' m' a X) ∧
    (∀ a, m !! Package.ID pkg = None → m' !! Package.ID pkg = Some a →
       node_ok h' m' a pkg).

Lemma marshalDeps_share rec :
  call_ok rec → share_ok rec →
  ∀ deps c h m r h' m',
    memo_valid (length h) m → heap_closed h → c < length h →
    marshalDeps pkgs rec c deps (h, m) = Some (r, (h', m')) →
    r = Done (Some c) ∧
    (∃ cs hs, h' = append_children c cs h ++ hs ∧ linked m' cs (resolved deps)) ∧
    ∀ i a, m !! i = None → m' !! i = Some a →
      ∃ X k', pkgs !! k' = Some X ∧ Package.ID X = i ∧ node_ok h' m' a X.
Proof.
  intros Hok Hrec deps. induction deps as [|dep deps IH];
    intros c h m r h' m' Hv Hh Hc Hrun.
  { simpl in Hrun. simplify_eq. split_and!; [done| |intros; congruence].
    exists [], []. rewrite append_children_nil, app_nil_r. split; [done|constructor]. }
  simpl in Hrun. unfold resolved. simpl. fold (resolved deps).
  destruct (pkgs !! dep) as [childPkg|] eqn:Ed; simpl; [|by eapply IH].
  destruct (rec childPkg (h, m)) as [[r1 [h1 m1]]|] eqn:E; [|done].
  destruct (Hok _ _ _ _ _ _ Hv Hh E) as ([hs1 ->] & Hh1 & Hg1 & Hr1).
  destruct (Hrec _ _ _ _ _ _ _ Ed Hv Hh E) as ([b ->] & Hnew1 & _).
  specialize (Hr1 _ eq_refl). symmetry in Hr1.
  assert (memo_valid (length (h ++ hs1)) m1) as Hv1 by by eapply memo_grows_valid.
  assert (memo_valid (length (append_children c [Some b] (h ++ hs1))) m1) as Hv2
    by by rewrite append_children_length.
  assert (heap_closed (append_children c [Some b] (h ++ hs1))) as Hh2.
  { apply append_children_closed; [done|]. intros b' Hb.
    apply list_elem_of_singleton in Hb. simplify_eq. by apply Hv1 in Hr1. }
  assert (c < length (append_children c [Some b] (h ++ hs1))) as Hc2.
  { rewrite append_children_length, length_app. lia. }
  destruct (marshalDeps_inv _ rec Hok _ _ _ _ _ _ _ Hv2 Hh2 Hc2 Hrun)
    as (_ & _ & Hg2 & _).
  destruct (IH _ _ _ _ _ _ Hv2 Hh2 Hc2 Hrun) as (-> & (cs & hs & -> & Hl) & Hnew2).
  split_and!; [done| |].
  - exists (Some b :: cs), (hs1 ++ hs). split.
    + rewrite append_children_twice, append_children_app by done.
      by rewrite <-app_assoc.
    + constructor; [|done]. exists b. split; [done|].
      destruct Hg2 as (Hs2 & _). by eapply lookup_weaken.
  - intros i a Hi Ha. destruct (m1 !! i) as [a'|] eqn:E1.
    + destruct Hg2 as (Hs2 & _). destruct Hg1 as (_ & _ & Hn1 & _).
      assert (a' = a) as ->.
      { pose proof (lookup_weaken _ _ _ _ E1 Hs2). congruence. }
      destruct (Hnew1 _ _ Hi E1) as (X & k' & Hk' & HX & Hok1).
      exists X, k'. split_and!; [done..|].
      eapply node_ok_mono; [done| |done].
      specialize (Hn1 _ _ E1 Hi). rewrite length_app in Hn1.
      rewrite lookup_app_l by (rewrite !append_children_length, length_app; lia).
      unfold append_children. rewrite !list_lookup_alter_ne by lia. done.
    + by apply Hnew2.
Qed.

Lemma marshalPackage_share fuel : share_ok (marshalPackage conv pkgs fuel).
Proof.
  induction fuel as [|fuel IH]; intros pkg k h m r h' m' Hk Hv Hh Hrun; [done|].
  simpl in Hrun. destruct (m !! Package.ID pkg) as [c|] eqn:Em.
  { simplify_eq. split_and!; [by eexists|intros; congruence..]. }
  destruct (conv_total pkg) as [component Ec]. rewrite Ec in Hrun.
  assert (memo_valid (length (h ++ [component])) (<[Package.ID pkg := length h]> m)) as Hv0.
  { rewrite length_app, Nat.add_1_r.
    eapply memo_grows_valid; [done|]. by apply memo_grows_alloc. }
  assert (heap_closed (h ++ [component])) as Hh0.
  { apply heap_closed_alloc; [done|]. by eapply conv_leaf. }
  assert (length h < length (h ++ [component])) as Hc0.
  { rewrite length_app. simpl. lia. }
  destruct (marshalDeps_inv _ _ (marshalPackage_inv conv pkgs conv_leaf fuel)
              _ _ _ _ _ _ _ Hv0 Hh0 Hc0 Hrun) as (_ & _ & (Hs & _) & _).
  destruct (marshalDeps_share _ (marshalPackage_inv conv pkgs conv_leaf fuel) IH
              _ _ _ _ _ _ _ Hv0 Hh0 Hc0 Hrun) as (-> & (cs & hs & -> & Hl) & Hnew).
  assert (∀ a, m' !! Package.ID pkg = Some a →
            node_ok (append_children (length h) cs (h ++ [component]) ++ hs) m' a pkg)
    as Hpkg.
  { intros a Ha. assert (a = length h) as ->.
    { assert (m' !! Package.ID pkg = Some (length h)) as Hm'.
      { eapply lookup_weaken; [|done]. by rewrite lookup_insert_eq. }
      congruence. }
    exists component, (core.Component.with_Components cs component).
    split_and!; [done| |done|done].
    rewrite lookup_app_l by (rewrite append_children_length, length_app; simpl; lia).
    unfold append_children. rewrite list_lookup_alter_eq.
    rewrite lookup_app_r, Nat.sub_diag by done. simpl.
    by rewrite (conv_leaf _ _ Ec). }
  split_and!; [by eexists| |by intros a _; apply Hpkg].
  intros i a Hi Ha. destruct (decide (i = Package.ID pkg)) as [->|Hne].
  - exists pkg, k. split_and!; [done..|]. by apply Hpkg.
  - apply Hnew; [|done]. by rewrite lookup_insert_ne.
Qed.
End Sharing.

(** ** Unfoldings and the heap *)

(** The nodes at the addresses from [lo] up to [hi] only link to each other. *)
Definition region (h : heap) (lo hi : nat) : Prop :=
  ∀ a c b, lo ≤ a < hi → h !! a = Some c →
    Some b ∈ core.Component.Components c → lo ≤ b < hi.

(** An unfolding only depends on the region it starts in. *)
Lemma unfold_region (h h2 : heap) lo hi :
  region h lo hi →
  (∀ a, lo ≤ a < hi → h2 !! a = h !! a) →
  ∀ n p, (∀ a, p = Some a → lo ≤ a < hi) → unfold n h2 p = unfold n h p.
Proof.
  intros Hr Hagree n. induction n as [|n IH]; intros [a|] Hp; simpl; try done.
  specialize (Hp a eq_refl). rewrite (Hagree a Hp).
  destruct (h !! a) as [c|] eqn:Ea; [|done]. f_equal.
  apply map_ext_in. intros x Hx. apply IH. intros b ->.
  apply list_elem_of_In in Hx. by eapply Hr.
Qed.

Lemma own_shiftC k c : own (shiftC k c) = own c.
Proof. by destruct c. Qed.

(** A piece of heap moved up by [k] unfolds as at its original place. *)
Lemma unfold_shift (h hs0 : heap) k :
  (∀ a c, hs0 !! a = Some c → h !! (k + a) = Some (shiftC k c)) →
  heap_closed hs0 →
  ∀ n p, (∀ a, p = Some a → a < length hs0) →
    unfold n h (Nat.add k <$> p) = unfold n hs0 p.
Proof.
  intros Hplaced Hc n. induction n as [|n IH]; intros [a|] Hp; simpl; try done.
  specialize (Hp a eq_refl). destruct (lookup_lt_is_Some_2 hs0 a Hp) as [c Ea].
  rewrite Ea, (Hplaced _ _ Ea), own_shiftC. f_equal. simpl.
  rewrite map_map. apply map_ext_in. intros x Hx. apply IH. intros b ->.
  apply list_elem_of_In in Hx. by eapply Hc.
Qed.

Lemma region_shift (h hs0 hs : heap) :
  heap_closed hs0 →
  region (h ++ (shiftC (length h) <$> hs0) ++ hs) (length h) (length h + length hs0).
Proof.
  intros Hc a c b Ha Hl Hb.
  rewrite lookup_app_r in Hl by lia.
  rewrite lookup_app_l in Hl by (rewrite length_fmap; lia).
  rewrite list_lookup_fmap in Hl.
  destruct (hs0 !! (a - length h)) as [c0|] eqn:E0; [|done]. simpl in Hl.
  simplify_eq. simpl in Hb. apply list_elem_of_In, in_map_iff in Hb as ([b0|] & Hb0 & Hin); [|done].
  simpl in Hb0. simplify_eq. apply list_elem_of_In in Hin.
  specialize (Hc _ _ _ E0 Hin). lia.
Qed.

Lemma region_union (h : heap) lo mid hi :
  region h lo mid → region h mid hi → lo ≤ mid ≤ hi → region h lo hi.
Proof.
  intros H1 H2 Hle a c b Ha Hl Hb. destruct (decide (a < mid)).
  - specialize (H1 a c b ltac:(lia) Hl Hb). lia.
  - specialize (H2 a c b ltac:(lia) Hl Hb). lia.
Qed.

Lemma region_agree (h h2 : heap) lo hi :
  region h lo hi → (∀ a, lo ≤ a < hi → h2 !! a = h !! a) → region h2 lo hi.
Proof. intros Hr Hag a c b Ha Hl Hb. rewrite Hag in Hl by done. by eapply Hr. Qed.

Lemma region_empty (h : heap) lo : region h lo lo.
Proof. intros a c b Ha. lia. Qed.

(** ** The forest of a package map *)

Section Forest.
Variable conv : Package.t → outcome (option core.Component.t).
Variable pkgs : gmap string Package.t.
Hypothesis conv_leaf :
  ∀ pkg c, conv pkg = Done (Some c) → core.Component.Components c = [].

(** The traversal from [pkg] on the empty heap. *)
Definition rootRun (fuel : nat) (pkg : Package.t) : result_of (option addr) :=
  marshalPackage conv pkgs fuel pkg ([], ∅).

(** The tree below the node of the root [pkg], if it has one. *)
Definition rootTree (fuel n : nat) (pkg : Package.t) : option Tree :=
  match rootRun fuel pkg with
  | Some (Done (Some r0), (hs0, _)) => Some (unfold n hs0 (Some r0))
  | _ => None
  end.

Definition rootFails (fuel : nat) (pkg : Package.t) : bool :=
  match rootRun fuel pkg with
  | Some (Failed _, _) => true
  | _ => false
  end.

(** The packages that [marshalPackages] does not skip. *)
Definition is_root (parents : gmap string (gset string)) (pkg : Package.t) : bool :=
  negb (Package.Indirect pkg && negb (size (parents !!! Package.ID pkg) =? 0)).

Lemma rootRun_at fuel pkg r0 hs0 m0 (h : heap) :
  rootRun fuel pkg = Some (r0, (hs0, m0)) →
  marshalPackage conv pkgs fuel pkg (h, ∅)
  = Some (shiftR (length h) r0,
          (h ++ (shiftC (length h) <$> hs0), Nat.add (length h) <$> m0)).
Proof.
  intros Hrun. apply (marshalPackage_reloc conv pkgs conv_leaf fuel _ _ _ _ _ _ h) in Hrun.
  by rewrite fmap_nil, app_nil_r, fmap_empty in Hrun.
Qed.

Lemma heap_closed_nil : heap_closed [].
Proof. intros a c b Ha. by rewrite lookup_nil in Ha. Qed.

Lemma memo_valid_empty n : memo_valid n ∅.
Proof. intros i a. by rewrite lookup_empty. Qed.

Lemma rootRun_closed fuel pkg r hs0 m0 :
  rootRun fuel pkg = Some (r, (hs0, m0)) →
  heap_closed hs0 ∧ ∀ a, r = Done (Some a) → a < length hs0.
Proof.
  intros Hrun.
  destruct (marshalPackage_inv conv pkgs conv_leaf fuel _ _ _ _ _ _
              (memo_valid_empty _) heap_closed_nil Hrun) as (_ & Hc & Hg & Hr).
  split; [done|]. intros a ->. specialize (Hr _ eq_refl). symmetry in Hr.
  eapply memo_grows_valid in Hg; [|apply memo_valid_empty]. by apply Hg in Hr.
Qed.

Lemma marshalRoots_forest fuel parents l :
  size pkgs < fuel →
  ∀ acc h,
    heap_closed h →
    (∀ k pkg, (k, pkg) ∈ l → pkgs !! k = Some pkg) →
    (∀ k pkg, (k, pkg) ∈ l → is_root parents pkg = true → rootFails fuel pkg = false) →
    ∃ new h',
      marshalRoots conv pkgs fuel parents l acc h = Some (Done (acc ++ new), h') ∧
      (∃ hs, h' = h ++ hs) ∧ heap_closed h' ∧
      region h' (length h) (length h') ∧
      (∀ x, x ∈ new → ∃ a, x = Some a ∧ length h ≤ a < length h') ∧
      ∀ n, unfold n h' <$> new = omap (rootTree fuel n) (filter (fun pkg => is_root parents pkg = true) l.*2).
Proof.
  intros Hfuel. induction l as [|[k pkg] l IH]; intros acc h Hh Hin Hnf.
  { exists [], h. simpl. rewrite app_nil_r. split_and!; try done.
    - exists []. by rewrite app_nil_r.
    - apply region_empty.
    - intros x Hx. by apply elem_of_nil in Hx. }
  assert (∀ k' pkg', (k', pkg') ∈ l → pkgs !! k' = Some pkg') as Hin'.
  { intros. apply Hin. by right. }
  assert (∀ k' pkg', (k', pkg') ∈ l → is_root parents pkg' = true →
            rootFails fuel pkg' = false) as Hnf'.
  { intros. eapply Hnf; [by right|done]. }
  cbn [marshalRoots fmap list_fmap snd]. rewrite filter_cons.
  destruct (decide (is_root parents pkg = true)) as [Hroot|Hroot]; last first.
  { apply not_true_is_false, negb_false_iff in Hroot. rewrite Hroot. by apply IH. }
  pose proof Hroot as Eskip. apply negb_true_iff in Eskip. rewrite Eskip.
  assert (pkgs !! k = Some pkg) as Hk by (apply Hin; by left).
  destruct (marshalPackage_root_terminates conv pkgs conv_leaf fuel pkg k [] Hk
              heap_closed_nil Hfuel) as [[r0 [hs0 m0]] Hrun].
  fold (rootRun fuel pkg) in Hrun.
  pose proof (rootRun_at _ _ _ _ _ h Hrun) as Hat. rewrite Hat.
  destruct (rootRun_closed _ _ _ _ _ Hrun) as [Hc0 Hr0].
  destruct (marshalPackage_inv conv pkgs conv_leaf fuel _ _ _ _ _ _
              (memo_valid_empty _) Hh Hat) as (_ & Hh1 & _ & _).
  assert (rootFails fuel pkg = false) as Hf.
  { eapply Hnf; [by left|done]. }
  assert (∀ n, rootTree fuel n pkg
               = match r0 with
                 | Done (Some a0) => Some (unfold n hs0 (Some a0))
                 | _ => None
                 end) as Htree.
  { intros n. unfold rootTree. by rewrite Hrun. }
  unfold rootFails in Hf. rewrite Hrun in Hf.
  destruct r0 as [[a0|]|err]; [| |done]; cbn [shiftR fmap option_fmap option_map].
  - destruct (IH (acc ++ [Some (length h + a0)]) _ Hh1 Hin' Hnf')
      as (new & h' & Hrun' & [hs ->] & Hh' & Hreg & Hnew & Htrees).
    exists (Some (length h + a0) :: new), ((h ++ (shiftC (length h) <$> hs0)) ++ hs).
    rewrite Hrun', <-!app_assoc. cbn [app].
    rewrite !length_app, length_fmap in *.
    split_and!; [done|by eexists|by rewrite <-!app_assoc in Hh'| | |].
    + eapply (region_union _ _ (length h + length hs0)).
      * apply region_shift. done.
      * rewrite <-!app_assoc in Hreg. by rewrite Nat.add_assoc.
      * lia.
    + intros x Hx. apply elem_of_cons in Hx as [->|Hx].
      * exists (length h + a0). split; [done|]. specialize (Hr0 _ eq_refl). lia.
      * destruct (Hnew _ Hx) as (a & -> & Ha). exists a. split; [done|lia].
    + intros n. cbn [omap list_omap]. rewrite Htree, fmap_cons.
      f_equal; [|by rewrite <-!app_assoc in Htrees].
      apply (unfold_shift _ hs0 (length h)) with (p := Some a0); [|done|].
      * intros a c Ha. rewrite lookup_app_r by lia.
        rewrite lookup_app_l by (rewrite length_fmap; apply lookup_lt_Some in Ha; lia).
        replace (length h + a - length h) with a by lia.
        by rewrite list_lookup_fmap, Ha.
      * intros a [= <-]. by apply Hr0.
  - destruct (IH acc _ Hh1 Hin' Hnf')
      as (new & h' & Hrun' & [hs ->] & Hh' & Hreg & Hnew & Htrees).
    exists new, ((h ++ (shiftC (length h) <$> hs0)) ++ hs).
    rewrite Hrun', <-!app_assoc.
    rewrite !length_app, length_fmap in *.
    split_and!; [done|by eexists|by rewrite <-!app_assoc in Hh'| | |].
    + eapply (region_union _ _ (length h + length hs0)).
      * apply region_shift. done.
      * rewrite <-!app_assoc in Hreg. by rewrite Nat.add_assoc.
      * lia.
    + intros x Hx. destruct (Hnew _ Hx) as (a & -> & Ha). exists a. split; [done|lia].
    + intros n. cbn [omap list_omap]. rewrite Htree.
      by rewrite <-!app_assoc in Htrees.
Qed.
End Forest.

(** ** The parent map *)

Lemma ParentDeps_inner (idq : string) deps :
  ∀ (parents : gmap string (gset string)) i x,
    x ∈ foldl (fun parents dependOn =>
                 <[dependOn := {[idq]} ∪ parents !!! dependOn]> parents)
              parents deps !!! i
    ↔ x ∈ parents !!! i ∨ (i ∈ deps ∧ x = idq).
Proof.
  induction deps as [|d deps IH]; intros parents i x; simpl.
  { rewrite elem_of_nil. naive_solver. }
  rewrite IH, elem_of_cons. destruct (decide (d = i)) as [->|Hne].
  - rewrite lookup_total_insert_eq. set_solver.
  - rewrite lookup_total_insert_ne by done. naive_solver.
Qed.

Lemma ParentDeps_outer l :
  ∀ (parents : gmap string (gset string)) i x,
    x ∈ foldl (fun parents pkg =>
                 foldl (fun parents dependOn =>
                          <[dependOn := {[ftypes.Package.ID pkg]} ∪ parents !!! dependOn]> parents)
                       parents (ftypes.Package.DependsOn pkg))
              parents l !!! i
    ↔ x ∈ parents !!! i
      ∨ ∃ q, q ∈ l ∧ i ∈ ftypes.Package.DependsOn q ∧ x = ftypes.Package.ID q.
Proof.
  induction l as [|p l IH]; intros parents i x; simpl.
  { split; [by left|]. intros [?|(q & Hq & _)]; [done|]. by apply elem_of_nil in Hq. }
  rewrite IH, ParentDeps_inner. split.
  - intros [[?|[? ?]]|(q & Hq & ?)]; [by left| |].
    + right. exists p. split; [by left|done].
    + right. exists q. split; [by right|done].
  - intros [?|(q & Hq & Hd & Hx)]; [by left; left|].
    apply elem_of_cons in Hq as [->|Hq]; [by left; right|].
    right. by exists q.
Qed.

(** The parents of [i] are the IDs of the packages that list [i] in
    [DependsOn]. *)
Lemma ParentDeps_spec l i x :
  x ∈ ParentDeps l !!! i
  ↔ ∃ q, q ∈ l ∧ i ∈ ftypes.Package.DependsOn q ∧ x = ftypes.Package.ID q.
Proof.
  unfold ParentDeps. rewrite ParentDeps_outer, lookup_total_empty.
  set_solver.
Qed.

Lemma ParentDeps_nonempty l i :
  (size (ParentDeps l !!! i) =? 0) = false
  ↔ ∃ q, q ∈ l ∧ i ∈ ftypes.Package.DependsOn q.
Proof.
  rewrite Nat.eqb_neq, size_empty_iff. split.
  - intros Hne. apply set_choose in Hne as [x Hx].
    apply ParentDeps_spec in Hx as (q & ? & ? & _). by exists q.
  - intros (q & Hq & Hd) He.
    assert (ftypes.Package.ID q ∈ ParentDeps l !!! i) as Hin.
    { apply ParentDeps_spec. by exists q. }
    set_solver.
Qed.

(** ** The marshaler on one result *)

Section MarshalerFacts.
Context `{Externals}.

Lemma pkgComponent_total pkg : ∃ c, pkgComponent pkg = Done (Some c).
Proof.
  unfold pkgComponent.
  destruct (ftypes.PkgIdentifier.PURL _) as [pu|]; [|by eexists].
  destruct (_ || _); by eexists.
Qed.

Lemma pkgComponent_leaf pkg c :
  pkgComponent pkg = Done (Some c) → core.Component.Components c = [].
Proof.
  unfold pkgComponent.
  destruct (ftypes.PkgIdentifier.PURL _) as [pu|]; [destruct (_ || _)|];
    by intros [= <-].
Qed.

Lemma packageMap_fold metadata result l :
  ∀ (m : gmap string Package.t) k X,
    foldl (fun m pkg => <[pkgID pkg := wrapPackage metadata result pkg]> m) m l !! k
    = Some X →
    m !! k = Some X
    ∨ ∃ pkg, pkg ∈ l ∧ k = pkgID pkg ∧ X = wrapPackage metadata result pkg.
Proof.
  induction l as [|p l IH]; intros m k X; simpl; [by left|].
  intros Hl. apply IH in Hl as [Hl|(pkg & ? & ? & ?)].
  - destruct (decide (pkgID p = k)) as [<-|Hne].
    + rewrite lookup_insert_eq in Hl. simplify_eq. right. exists p.
      split; [by left|done].
    + rewrite lookup_insert_ne in Hl by done. by left.
  - right. exists pkg. split; [by right|done].
Qed.

(** Every entry of the package map is a package of the result, under the
    key computed from it. *)
Lemma packageMap_lookup metadata result k X :
  packageMap metadata result !! k = Some X →
  ∃ pkg, pkg ∈ types.Result.Packages result ∧ k = pkgID pkg
         ∧ X = wrapPackage metadata result pkg.
Proof.
  intros Hl. apply packageMap_fold in Hl as [Hl|?]; [|done].
  by rewrite lookup_empty in Hl.
Qed.

Lemma packageMap_size metadata result :
  size (packageMap metadata result) ≤ length (types.Result.Packages result).
Proof.
  unfold packageMap.
  assert (∀ l (m : gmap string Package.t),
            size (foldl (fun m pkg => <[pkgID pkg := wrapPackage metadata result pkg]> m) m l)
            ≤ size m + length l) as Hgen.
  { induction l as [|p l IH]; intros m; simpl; [lia|].
    etrans; [apply IH|]. 
    destruct (m !! pkgID p) eqn:E.
    - rewrite map_size_insert_Some by done. lia.
    - rewrite map_size_insert_None by done. lia. }
  specialize (Hgen (types.Result.Packages result) ∅).
  by rewrite map_size_empty in Hgen.
Qed.

(** The packages from which [marshalPackages] starts a traversal, in the
    order in which it ranges over the package map. *)
Definition candidates (o : RangeOrder) (metadata : types.Metadata.t)
    (result : types.Result.t) : list Package.t :=
  filter (fun pkg => is_root (ParentDeps (types.Result.Packages result)) pkg = true)
         (range o (map_to_list (packageMap metadata result))).*2.

(** The trees below the roots of the forest of a result. *)
Definition packageTrees (o : RangeOrder) (fuel n : nat)
    (metadata : types.Metadata.t) (result : types.Result.t) : list Tree :=
  omap (rootTree pkgComponent (packageMap metadata result) fuel n)
       (candidates o metadata result).

Lemma range_lookup (o : RangeOrder) (m : gmap string Package.t) k pkg :
  (k, pkg) ∈ range o (map_to_list m) → m !! k = Some pkg.
Proof. rewrite range_perm. apply elem_of_map_to_list. Qed.

Lemma rootFails_pkgComponent metadata result fuel k pkg :
  packageMap metadata result !! k = Some pkg →
  rootFails pkgComponent (packageMap metadata result) fuel pkg = false.
Proof.
  intros Hk. unfold rootFails, rootRun.
  destruct (marshalPackage _ _ _ _ _) as [[r [hs0 m0]]|] eqn:E; [|done].
  destruct (marshalPackage_share _ _ pkgComponent_leaf pkgComponent_total fuel
              _ _ _ _ _ _ _ Hk (memo_valid_empty _) heap_closed_nil E) as ([a ->] & _).
  done.
Qed.

Lemma marshalPackages_spec o fuel metadata result (h : heap) :
  heap_closed h →
  length (types.Result.Packages result) < fuel →
  ∃ roots h',
    marshalPackages o fuel metadata result h = Some (Done roots, h') ∧
    (∃ hs, h' = h ++ hs) ∧ heap_closed h' ∧
    region h' (length h) (length h') ∧
    (∀ x, x ∈ roots → ∃ a, x = Some a ∧ length h ≤ a < length h') ∧
    ∀ n, unfold n h' <$> roots = packageTrees o fuel n metadata result.
Proof.
  intros Hh Hfuel. unfold marshalPackages, marshalPackagesWith.
  destruct (marshalRoots_forest pkgComponent (packageMap metadata result)
              pkgComponent_leaf fuel (ParentDeps (types.Result.Packages result))
              (range o (map_to_list (packageMap metadata result))))
    with (acc := @nil (option addr)) (h := h)
    as (new & h' & Hrun & Hext & Hh' & Hreg & Hnew & Htrees); try done.
  - pose proof (packageMap_size metadata result). lia.
  - intros k pkg. apply range_lookup.
  - intros k pkg Hin _. apply range_lookup in Hin. by eapply rootFails_pkgComponent.
  - exists new, h'. done.
Qed.

(** The trees that one result contributes below the root of the report. *)
Definition resultTrees (o : RangeOrder) (fuel n : nat)
    (metadata : types.Metadata.t) (result : types.Result.t) : list Tree :=
  if is_floating result then packageTrees o fuel n metadata result
  else if has_node result then
    [ match n with
      | 0 => TCut
      | S n' =>
          TNode (own (resultNode result (types.Metadata.OS metadata)))
                (packageTrees o fuel n' metadata result)
      end ]
  else [].

Lemma resultNode_leaf result osFound :
  core.Component.Components (resultNode result osFound) = [].
Proof.
  unfold resultNode. destruct (String.eqb _ ClassOSPkg); [by destruct osFound|].
  by destruct (String.eqb _ ClassLangPkg).
Qed.

Lemma set_children_closed a cs (h : heap) :
  heap_closed h → (∀ b, Some b ∈ cs → b < length h) →
  heap_closed (set_children a cs h).
Proof.
  intros Hh Hcs x c b Hx Hb. unfold set_children in *. rewrite length_alter.
  rewrite list_lookup_alter in Hx. case_decide; [subst|by eapply Hh].
  destruct (h !! x) as [y|] eqn:E; [|done]. simpl in Hx. simplify_eq.
  by apply Hcs.
Qed.

Lemma marshalResult_spec o fuel metadata result (h : heap) :
  heap_closed h →
  length (types.Result.Packages result) < fuel →
  ∃ out h',
    marshalResult o fuel metadata result h = Some (Done out, h') ∧
    (∃ hs, h' = h ++ hs) ∧ heap_closed h' ∧
    region h' (length h) (length h') ∧
    (∀ x, x ∈ out → ∃ a, x = Some a ∧ length h ≤ a < length h') ∧
    ∀ n, unfold n h' <$> out = resultTrees o fuel n metadata result.
Proof.
  intros Hh Hfuel. unfold marshalResult, resultTrees.
  destruct (is_floating result).
  { destruct (marshalPackages_spec o fuel metadata result h Hh Hfuel)
      as (roots & h' & -> & ?). by exists roots, h'. }
  destruct (has_node result); last first.
  { exists [], h. split_and!; try done.
    - exists []. by rewrite app_nil_r.
    - apply region_empty.
    - intros x Hx. by apply elem_of_nil in Hx. }
  unfold resultComponent, alloc.
  set (node := resultNode result (types.Metadata.OS metadata)).
  assert (heap_closed (h ++ [node])) as Hh1.
  { apply heap_closed_alloc; [done|]. apply resultNode_leaf. }
  destruct (marshalPackages_spec o fuel metadata result _ Hh1 Hfuel)
    as (roots & h' & -> & [hs ->] & Hh' & Hreg & Hroots & Htrees).
  rewrite !length_app in *. simpl in *.
  assert (∀ a, length h + 1 ≤ a →
            set_children (length h) roots ((h ++ [node]) ++ hs) !! a
            = ((h ++ [node]) ++ hs) !! a) as Hagree.
  { intros a Ha. unfold set_children. by rewrite list_lookup_alter_ne by lia. }
  exists [Some (length h)], (set_children (length h) roots ((h ++ [node]) ++ hs)).
  split_and!; [done| |..].
  - exists (set_children 0 roots [node] ++ hs). unfold set_children.
    rewrite <-app_assoc, <-(Nat.add_0_r (length h)) at 1.
    by rewrite alter_app_r, alter_app_l by (simpl; lia).
  - apply set_children_closed; [done|]. intros b Hb.
    destruct (Hroots _ Hb) as (a & [= <-] & Ha). rewrite !length_app. simpl. lia.
  - unfold set_children at 2. rewrite length_alter, !length_app. simpl.
    intros a c b Ha Hl Hb. destruct (decide (a = length h)) as [->|Hne].
    + unfold set_children in Hl. rewrite list_lookup_alter_eq in Hl.
      rewrite <-app_assoc, lookup_app_r, Nat.sub_diag in Hl by done.
      simpl in Hl. simplify_eq. simpl in Hb.
      destruct (Hroots _ Hb) as (a & [= <-] & Ha'). lia.
    + rewrite Hagree in Hl by lia.
      specialize (Hreg a c b ltac:(lia) Hl Hb). lia.
  - intros x Hx. apply list_elem_of_singleton in Hx as ->. exists (length h).
    split; [done|]. unfold set_children. rewrite length_alter, !length_app. simpl. lia.
  - assert (set_children (length h) roots ((h ++ [node]) ++ hs) !! length h
            = Some (core.Component.with_Components roots node)) as Hnode.
    { unfold set_children.
      by rewrite list_lookup_alter_eq, <-app_assoc, lookup_app_r, Nat.sub_diag. }
    intros [|n]; [done|]. cbn [fmap list_fmap unfold]. rewrite Hnode.
    f_equal. f_equal. rewrite <-Htrees. apply map_ext_in. intros x Hx.
    apply list_elem_of_In in Hx.
    eapply unfold_region; [exact Hreg| |].
    + intros a Ha. apply Hagree. lia.
    + intros a ->. destruct (Hroots _ Hx) as (a' & [= <-] & Ha'). lia.
Qed.

(** ** The marshaler on a report *)

(** The trees below the root of the report: those of its results, from the
    result of index [i] on, in the order of the results. *)
Fixpoint reportTrees (o : nat → RangeOrder) (fuel n : nat)
    (metadata : types.Metadata.t) (i : nat) (results : list types.Result.t)
    : list Tree :=
  match results with
  | [] => []
  | result :: results' =>
      resultTrees (o i) fuel n metadata result
      ++ reportTrees o fuel n metadata (S i) results'
  end.

Lemma with_Components_app_nil c :
  core.Component.with_Components (core.Component.Components c ++ []) c = c.
Proof. destruct c. unfold core.Component.with_Components. simpl. by rewrite app_nil_r. Qed.

Lemma marshalResults_spec o fuel metadata root results :
  ∀ i (h : heap),
    heap_closed h → root < length h →
    (∀ result, result ∈ results → length (types.Result.Packages result) < fuel) →
    ∃ outs h',
      marshalResults o fuel metadata root i results h = Some (Done root, h') ∧
      heap_closed h' ∧ length h ≤ length h' ∧
      (∀ a, a < length h → a ≠ root → h' !! a = h !! a) ∧
      h' !! root
      = (fun c => core.Component.with_Components (core.Component.Components c ++ outs) c)
        <$> h !! root ∧
      (∀ x, x ∈ outs → ∃ a, x = Some a ∧ length h ≤ a < length h') ∧
      ∀ n, unfold n h' <$> outs = reportTrees o fuel n metadata i results.
Proof.
  induction results as [|result results IH]; intros i h Hh Hroot Hfuel.
  { exists [], h. split_and!; try done.
    - destruct (h !! root) as [c|]; [|done]. simpl. by rewrite with_Components_app_nil.
    - intros x Hx. by apply elem_of_nil in Hx. }
  cbn [marshalResults reportTrees].
  destruct (marshalResult_spec (o i) fuel metadata result h Hh)
    as (out & h1 & -> & [hs1 ->] & Hh1 & Hreg & Hout & Htrees).
  { apply Hfuel. by left. }
  set (h2 := append_children root out (h ++ hs1)).
  assert (length h2 = length (h ++ hs1)) as Hlen2 by apply append_children_length.
  assert (heap_closed h2) as Hh2.
  { apply append_children_closed; [done|]. intros b Hb.
    destruct (Hout _ Hb) as (a & [= <-] & Ha). lia. }
  destruct (IH (S i) h2 Hh2) as (outs & h' & -> & Hh' & Hlen & Hframe & Hr & Houts & Htrees').
  { rewrite Hlen2, length_app. lia. }
  { intros. apply Hfuel. by right. }
  rewrite Hlen2 in *. rewrite length_app in *.
  assert (∀ a, length h ≤ a < length h + length hs1 → h' !! a = (h ++ hs1) !! a) as Hagree.
  { intros a Ha. rewrite Hframe by lia. unfold h2, append_children.
    by rewrite list_lookup_alter_ne by lia. }
  exists (out ++ outs), h'. split_and!; [done|done|lia| | | |].
  - intros a Ha Hne. rewrite Hframe by lia. unfold h2, append_children.
    rewrite list_lookup_alter_ne by done. by rewrite lookup_app_l.
  - rewrite Hr. unfold h2, append_children. rewrite list_lookup_alter_eq.
    rewrite lookup_app_l by done. destruct (h !! root) as [c|]; [|done]. simpl.
    unfold core.Component.with_Components. simpl. by rewrite app_assoc.
  - intros x Hx. apply elem_of_app in Hx as [Hx|Hx].
    + destruct (Hout _ Hx) as (a & -> & Ha). exists a. split; [done|lia].
    + destruct (Houts _ Hx) as (a & -> & Ha). exists a. split; [done|lia].
  - intros n. rewrite fmap_app, Htrees', <-Htrees. f_equal.
    apply map_ext_in. intros x Hx. apply list_elem_of_In in Hx.
    eapply unfold_region; [exact Hreg| |].
    + intros a Ha. apply Hagree. lia.
    + intros a ->. destruct (Hout _ Hx) as (a' & [= <-] & Ha'). done.
Qed.

(** The error with which [rootComponent] gives up, if it does. *)
Definition rootError (r : types.Report.t) : option string :=
  match types.Report.ArtifactType r with
  | ftypes.ArtifactContainerImage =>
      match purl_New TypeOCI (types.Report.Metadata r) ftypes.Package.zero with
      | Failed err => Some (Errorf "failed to new package url for oci" err)
      | Done _ => None
      end
  | ftypes.ArtifactCycloneDX =>
      match toCoreComponent (types.Report.CycloneDX r) with
      | Failed err => Some err
      | Done _ => None
      end
  | _ => None
  end.

Lemma rootComponent_spec r (h : heap) :
  match rootError r with
  | Some err => rootComponent r h = (Failed err, h)
  | None =>
      ∃ c, rootComponent r h = (Done (length h), h ++ [c])
           ∧ core.Component.Components c = []
           ∧ ∀ h2 : heap, rootComponent r h2 = (Done (length h2), h2 ++ [c])
  end.
Proof.
  unfold rootError, rootComponent, alloc.
  destruct (types.Report.ArtifactType r).
  - destruct (purl_New _ _ _) as [[p|]|err]; [| |done]; by eexists.
  - by eexists.
  - by eexists.
  - unfold toCoreComponent.
    destruct (String.eqb _ ""); [by eexists|].
    destruct (purl_FromString _) as [p|err]; [|done]. by eexists.
  - by eexists.
  - by eexists.
Qed.

(** The graph that [MarshalReport] builds, unfolded from its root. *)
Lemma MarshalReport_spec o fuel r (h : heap) :
  heap_closed h →
  (∀ result, result ∈ types.Report.Results r →
     length (types.Result.Packages result) < fuel) →
  match rootError r with
  | Some err => MarshalReport o fuel r h = Some (Failed err, h)
  | None =>
      ∃ c h',
        rootComponent r h = (Done (length h), h ++ [c]) ∧
        MarshalReport o fuel r h = Some (Done (length h), h') ∧
        ∀ n, unfold (S n) h' (Some (length h))
             = TNode (own c)
                 (reportTrees o fuel n (types.Report.Metadata r) 0
                    (types.Report.Results r))
  end.
Proof.
  intros Hh Hfuel. pose proof (rootComponent_spec r h) as Hroot.
  unfold MarshalReport. destruct (rootError r) as [err|].
  { by rewrite Hroot. }
  destruct Hroot as (c & -> & Hleaf & _).
  assert (heap_closed (h ++ [c])) as Hh0 by by apply heap_closed_alloc.
  assert (length h < length (h ++ [c])) as Hlt by (rewrite length_app; simpl; lia).
  destruct (marshalResults_spec o fuel (types.Report.Metadata r) (length h)
              (types.Report.Results r) 0 (h ++ [c]) Hh0 Hlt Hfuel)
    as (outs & h' & -> & Hh' & Hlen & Hframe & Hr & Houts & Htrees).
  exists c, h'. split_and!; try done. intros n. simpl. rewrite Hr.
  rewrite lookup_app_r, Nat.sub_diag by done. simpl. rewrite Hleaf. simpl.
  f_equal. apply Htrees.
Qed.
End MarshalerFacts.

(** ** The nodes of a forest *)

Section ForestNodes.
Variable conv : Package.t → outcome (option core.Component.t).
Variable pkgs : gmap string Package.t.
Hypothesis conv_leaf :
  ∀ pkg c, conv pkg = Done (Some c) → core.Component.Components c = [].
Hypothesis conv_total : ∀ pkg, ∃ c, conv pkg = Done (Some c).

(** [m] is the memo map at the end of the traversal that built the node [a]
    for the root [pkg]: it holds one finished node for every ID that the
    traversal reached, and no node twice. *)
Definition traversal_of (h : heap) (pkg : Package.t) (a : addr) (m : memo) : Prop :=
  m !! Package.ID pkg = Some a ∧ node_ok conv pkgs h m a pkg ∧
  (∀ i j b, m !! i = Some b → m !! j = Some b → i = j) ∧
  (∀ i b, m !! i = Some b →
     ∃ X k, pkgs !! k = Some X ∧ Package.ID X = i ∧ node_ok conv pkgs h m b X).

Lemma marshalRoots_nodes fuel parents l :
  size pkgs < fuel →
  ∀ acc h,
    heap_closed h →
    (∀ k pkg, (k, pkg) ∈ l → pkgs !! k = Some pkg) →
    ∃ new h',
      marshalRoots conv pkgs fuel parents l acc h = Some (Done (acc ++ new), h') ∧
      (∃ hs, h' = h ++ hs) ∧
      Forall2 (fun r pkg => ∃ a m, r = Some a ∧ traversal_of h' pkg a m)
              new (filter (fun pkg => is_root parents pkg = true) l.*2).
Proof.
  intros Hfuel. induction l as [|[k pkg] l IH]; intros acc h Hh Hin.
  { exists [], h. simpl. rewrite app_nil_r. split_and!; [done| |constructor].
    exists []. by rewrite app_nil_r. }
  assert (∀ k' pkg', (k', pkg') ∈ l → pkgs !! k' = Some pkg') as Hin'.
  { intros. apply Hin. by right. }
  cbn [marshalRoots fmap list_fmap snd]. rewrite filter_cons.
  destruct (decide (is_root parents pkg = true)) as [Hroot|Hroot]; last first.
  { apply not_true_is_false, negb_false_iff in Hroot. rewrite Hroot. by apply IH. }
  pose proof Hroot as Eskip. apply negb_true_iff in Eskip. rewrite Eskip.
  assert (pkgs !! k = Some pkg) as Hk by (apply Hin; by left).
  destruct (marshalPackage_root_terminates conv pkgs conv_leaf fuel pkg k h Hk Hh Hfuel)
    as [[r [h1 m1]] Hrun].
  rewrite Hrun.
  destruct (marshalPackage_inv conv pkgs conv_leaf fuel _ _ _ _ _ _
              (memo_valid_empty _) Hh Hrun) as ([hs1 ->] & Hh1 & Hg & Hr).
  destruct (marshalPackage_share conv pkgs conv_leaf conv_total fuel
              _ _ _ _ _ _ _ Hk (memo_valid_empty _) Hh Hrun) as ([a ->] & Hnew & Hpkg).
  specialize (Hr _ eq_refl). symmetry in Hr.
  destruct (IH (acc ++ [Some a]) _ Hh1 Hin') as (new & h' & -> & [hs ->] & Hall).
  exists (Some a :: new), ((h ++ hs1) ++ hs).
  rewrite <-!app_assoc. cbn [app]. split_and!; [done|by eexists|].
  constructor; [|by rewrite <-!app_assoc in Hall].
  assert (memo_valid (length (h ++ hs1)) m1) as Hv1.
  { eapply memo_grows_valid; [|done]. apply memo_valid_empty. }
  assert (∀ b, b < length (h ++ hs1) → (h ++ hs1 ++ hs) !! b = (h ++ hs1) !! b) as Hsame.
  { intros b Hb. by rewrite app_assoc, lookup_app_l. }
  exists a, m1. split; [done|]. split_and!; [done| | |].
  - eapply node_ok_mono; [done| |by apply Hpkg].
    apply Hsame. by apply Hv1 in Hr.
  - intros i j b Hi Hj. destruct Hg as (_ & _ & Hn & _ & Hinj).
    eapply Hinj; [done..|]. specialize (Hn _ _ Hi (lookup_empty _)). lia.
  - intros i b Hi. destruct (Hnew _ _ (lookup_empty _) Hi) as (X & k' & ? & ? & Hok).
    exists X, k'. split_and!; [done..|].
    eapply node_ok_mono; [done| |done].
    apply Hsame. by apply Hv1 in Hi.
Qed.
End ForestNodes.

(** * The properties of the design *)

(** ** Property filter *)

(** The entries that the design keeps: those with a non-empty value, except
    the source-epoch entry with value "0". *)
Definition kept (p : core.Property.t) : Prop :=
  core.Property.Value p ≠ ""
  ∧ ¬ (core.Property.Name p = PropertySrcEpoch ∧ core.Property.Value p = "0").

#[global] Instance kept_dec p : Decision (kept p).
Proof. unfold kept. apply _. Defined.

Lemma kept_test p :
  negb (String.eqb (core.Property.Value p) ""
        || (String.eqb (core.Property.Name p) PropertySrcEpoch
            && String.eqb (core.Property.Value p) "0")) = true
  ↔ kept p.
Proof.
  unfold kept. rewrite negb_true_iff, orb_false_iff, andb_false_iff.
  rewrite !String.eqb_neq. split.
  - intros [Hv Hn]. split; [done|]. intros [? ?]. by destruct Hn.
  - intros [Hv Hn]. split; [done|].
    destruct (decide (core.Property.Name p = PropertySrcEpoch)); [|by left].
    right. intros ?. by apply Hn.
Qed.

(** C5: [filterProperties] returns exactly the entries with a non-empty
    value that are not the source-epoch entry with value "0", in their
    original order: it is the order-preserving filter of the list by [kept],
    hence a subsequence of its input with the same members; a source-epoch
    entry with value "0" is dropped and one with value "5" is kept. *)
Theorem filterProperties_spec (props : list core.Property.t) :
  filterProperties props = filter kept props
  ∧ filterProperties props `sublist_of` props
  ∧ (∀ p, p ∈ filterProperties props ↔ p ∈ props ∧ kept p)
  ∧ (∀ ns v, core.Property.mk ns PropertySrcEpoch v ∈ filterProperties props
             ↔ core.Property.mk ns PropertySrcEpoch v ∈ props ∧ v ≠ "" ∧ v ≠ "0")
  ∧ filterProperties (props ++ [mkProp PropertySrcEpoch "5"])
    = filterProperties props ++ [mkProp PropertySrcEpoch "5"]
  ∧ filterProperties (props ++ [mkProp PropertySrcEpoch "0"])
    = filterProperties props.
Proof.
  assert (filterProperties props = filter kept props) as Heq.
  { unfold filterProperties. induction props as [|p props IH]; [done|].
    simpl. rewrite filter_cons, IH.
    destruct (negb _) eqn:E.
    - apply kept_test in E. by rewrite decide_True.
    - rewrite decide_False; [done|]. intros Hk. apply kept_test in Hk. congruence. }
  assert (∀ p, p ∈ filterProperties props ↔ p ∈ props ∧ kept p) as Hmem.
  { intros p. rewrite Heq, list_elem_of_filter. tauto. }
  split_and!; [done| |done| | |].
  - rewrite Heq. apply sublist_filter.
  - intros ns v. rewrite Hmem. unfold kept. simpl. naive_solver.
  - unfold filterProperties. by rewrite List.filter_app.
  - unfold filterProperties. rewrite List.filter_app. simpl. by rewrite app_nil_r.
Qed.

(** ** Identity of a package component *)

Section Identity.
Context `{Externals}.

(** C6: the node of a package takes its version from the package URL when
    there is one; for the types maven and npm, and for no other, its name
    and group are the name and the namespace of the package URL; otherwise
    the name is the name of the package and the group is empty.  Without a
    package URL the version is that of the package and the group is
    empty. *)
Theorem pkgComponent_identity (pkg : Package.t) :
  ∃ c, pkgComponent pkg = Done (Some c) ∧
    match ftypes.PkgIdentifier.PURL (ftypes.Package.Identifier (Package.Package pkg)) with
    | Some pu =>
        core.Component.Version c = packageurl.PackageURL.Version pu ∧
        if decide (packageurl.PackageURL.Type_ pu = packageurl.TypeMaven
                   ∨ packageurl.PackageURL.Type_ pu = packageurl.TypeNPM)
        then core.Component.Name c = packageurl.PackageURL.Name pu
             ∧ core.Component.Group c = packageurl.PackageURL.Namespace pu
        else core.Component.Name c = ftypes.Package.Name (Package.Package pkg)
             ∧ core.Component.Group c = ""
    | None =>
        core.Component.Version c = ftypes.Package.Version (Package.Package pkg)
        ∧ core.Component.Name c = ftypes.Package.Name (Package.Package pkg)
        ∧ core.Component.Group c = ""
    end.
Proof.
  unfold pkgComponent.
  destruct (ftypes.PkgIdentifier.PURL _) as [pu|]; [|by eexists].
  destruct (String.eqb_spec (packageurl.PackageURL.Type_ pu) packageurl.TypeMaven) as [Hm|Hm];
    simpl.
  { eexists. split; [done|]. simpl. split; [done|]. rewrite decide_True; [done|by left]. }
  destruct (String.eqb_spec (packageurl.PackageURL.Type_ pu) packageurl.TypeNPM) as [Hn|Hn].
  { eexists. split; [done|]. simpl. split; [done|]. rewrite decide_True; [done|by right]. }
  eexists. split; [done|]. simpl. split; [done|]. rewrite decide_False; [done|]. tauto.
Qed.
End Identity.

(** ** Errors of the report and results without packages *)

Section ReportProperties.
Context `{Externals}.

(** C10: a result that is neither of one of the five language-package types
    without lock file nor of class OS package or language package adds
    nothing to the graph: [marshalResult] returns no component and no error,
    and leaves the heap as it is. *)
Theorem marshalResult_other_dropped (o : RangeOrder) (fuel : nat)
    (metadata : types.Metadata.t) (result : types.Result.t) (h : heap) :
  types.Result.Type_ result ∉ [NodePkg; PythonPkg; GemSpec; Jar; CondaPkg] →
  types.Result.Class result ≠ ClassOSPkg →
  types.Result.Class result ≠ ClassLangPkg →
  marshalResult o fuel metadata result h = Some (Done [], h).
Proof.
  intros Hty Hos Hlang. unfold marshalResult.
  assert (is_floating result = false) as ->.
  { unfold is_floating. rewrite !orb_false_iff, !String.eqb_neq.
    rewrite !not_elem_of_cons in Hty. tauto. }
  assert (has_node result = false) as ->; [|done].
  unfold has_node. rewrite orb_false_iff, !String.eqb_neq. tauto.
Qed.

(** C7: [MarshalReport] fails exactly when the package URL of the root
    cannot be built (container image) or the package URL of the metadata
    component of a CycloneDX document cannot be parsed; it then returns the
    error only, and has added no node to the heap.  In every other case it
    returns the root. *)
Theorem MarshalReport_fails_iff (o : nat → RangeOrder) (fuel : nat)
    (r : types.Report.t) (h : heap) :
  heap_closed h →
  (∀ result, result ∈ types.Report.Results r →
     length (types.Result.Packages result) < fuel) →
  let oci_fails :=
    types.Report.ArtifactType r = ftypes.ArtifactContainerImage
    ∧ ∃ err, purl_New TypeOCI (types.Report.Metadata r) ftypes.Package.zero
             = Failed err in
  let parse_fails :=
    types.Report.ArtifactType r = ftypes.ArtifactCycloneDX
    ∧ ftypes.Component.PackageURL (types.Report.CycloneDX r) ≠ ""
    ∧ ∃ err, purl_FromString (ftypes.Component.PackageURL (types.Report.CycloneDX r))
             = Failed err in
  ((∃ err h', MarshalReport o fuel r h = Some (Failed err, h'))
   ↔ oci_fails ∨ parse_fails)
  ∧ (∀ err h', MarshalReport o fuel r h = Some (Failed err, h') → h' = h)
  ∧ ((∃ root h', MarshalReport o fuel r h = Some (Done root, h'))
     ↔ ¬ (oci_fails ∨ parse_fails)).
Proof.
  intros Hh Hfuel oci_fails parse_fails.
  pose proof (MarshalReport_spec o fuel r h Hh Hfuel) as Hspec.
  assert (is_Some (rootError r) ↔ oci_fails ∨ parse_fails) as Herr.
  { unfold rootError, oci_fails, parse_fails, toCoreComponent.
    destruct (types.Report.ArtifactType r);
      try (split; [by intros [? [=]]|by intros [[[=] _]|[[=] _]]]).
    - destruct (purl_New _ _ _) as [p|err].
      + split; [by intros [? [=]]|]. by intros [[_ [? [=]]]|[[=] _]].
      + split; [|by eexists]. intros _. left. split; [done|by eexists].
    - destruct (String.eqb_spec (ftypes.Component.PackageURL (types.Report.CycloneDX r)) "")
        as [He|He].
      + split; [by intros [? [=]]|]. by intros [[[=] _]|(_ & ? & _)].
      + destruct (purl_FromString _) as [p|err].
        * split; [by intros [? [=]]|]. by intros [[[=] _]|(_ & _ & ? & [=])].
        * split; [|by eexists]. intros _. right. split_and!; [done..|by eexists]. }
  destruct (rootError r) as [err|].
  - rewrite Hspec. split_and!.
    + split; [intros _; apply Herr; by eexists|by eexists; eexists].
    + by intros ?? [= _ <-].
    + split; [by intros (? & ? & [=])|]. intros Hn. contradict Hn. apply Herr. by eexists.
  - destruct Hspec as (c & h' & _ & -> & _). split_and!.
    + split; [by intros (? & ? & [=])|]. intros Hf. apply Herr in Hf. by destruct Hf.
    + by intros ?? [=].
    + split; [|by eexists; eexists]. intros _ Hf. apply Herr in Hf. by destruct Hf.
Qed.
End ReportProperties.

(** ** Roots of the forest, sharing and cycles *)

Section ForestProperties.
Context `{Externals}.

Lemma marshalPackages_nodes o fuel metadata result (h : heap) :
  heap_closed h →
  length (types.Result.Packages result) < fuel →
  ∃ roots h',
    marshalPackages o fuel metadata result h = Some (Done roots, h') ∧
    (∃ hs, h' = h ++ hs) ∧
    Forall2 (fun r pkg =>
               ∃ a m, r = Some a
                      ∧ traversal_of pkgComponent (packageMap metadata result) h' pkg a m)
            roots (candidates o metadata result).
Proof.
  intros Hh Hfuel. unfold marshalPackages.
  destruct (marshalRoots_nodes pkgComponent (packageMap metadata result)
              pkgComponent_leaf pkgComponent_total fuel
              (ParentDeps (types.Result.Packages result))
              (range o (map_to_list (packageMap metadata result))))
    with (acc := @nil (option addr)) (h := h) as (new & h' & Hrun & Hext & Hall);
    try done.
  - pose proof (packageMap_size metadata result). lia.
  - intros k pkg. apply range_lookup.
  - by exists new, h'.
Qed.


Lemma is_root_false (pkgs : list ftypes.Package.t) (pkg : Package.t) :
  is_root (ParentDeps pkgs) pkg = false
  ↔ Package.Indirect pkg = true
    ∧ ∃ q, q ∈ pkgs ∧ Package.ID pkg ∈ ftypes.Package.DependsOn q.
Proof.
  unfold is_root. pose proof (ParentDeps_nonempty pkgs (Package.ID pkg)) as [Hp1 Hp2].
  destruct (Package.Indirect pkg), (size _ =? 0); simpl; split; try done.
  - intros [_ Hq]. by apply Hp2 in Hq.
  - intros _. split; [done|]. by apply Hp1.
  - by intros [? _].
  - by intros [? _].
Qed.











End ForestProperties.

(** ** Children of the root and determinism *)

Section GraphProperties.
Context `{Externals}.

(** The number of nodes that a result adds below the root of the report. *)
Definition contribution (o : RangeOrder) (metadata : types.Metadata.t)
    (result : types.Result.t) : nat :=
  if is_floating result then length (candidates o metadata result)
  else if has_node result then 1
  else 0.

Fixpoint contributions (o : nat → RangeOrder) (metadata : types.Metadata.t)
    (i : nat) (results : list types.Result.t) : nat :=
  match results with
  | [] => 0
  | result :: results' =>
      contribution (o i) metadata result + contributions o metadata (S i) results'
  end.

Lemma packageTrees_length o fuel n metadata result :
  length (types.Result.Packages result) < fuel →
  length (packageTrees o fuel n metadata result)
  = length (candidates o metadata result).
Proof.
  intros Hfuel.
  destruct (marshalPackages_spec o fuel metadata result [] heap_closed_nil Hfuel)
    as (roots & h' & Hrun & _ & _ & _ & _ & Htrees).
  destruct (marshalPackages_nodes o fuel metadata result [] heap_closed_nil Hfuel)
    as (roots' & h'' & Hrun' & _ & Hall).
  rewrite Hrun in Hrun'. simplify_eq.
  rewrite <-Htrees, length_fmap. by eapply Forall2_length.
Qed.

Lemma reportTrees_length o fuel n metadata results :
  (∀ result, result ∈ results → length (types.Result.Packages result) < fuel) →
  ∀ i, length (reportTrees o fuel n metadata i results)
       = contributions o metadata i results.
Proof.
  induction results as [|result results IH]; intros Hfuel i; [done|].
  simpl. rewrite length_app, IH by (intros; apply Hfuel; by right). f_equal.
  unfold resultTrees, contribution.
  destruct (is_floating result).
  - apply packageTrees_length, Hfuel. by left.
  - by destruct (has_node result).
Qed.

(** C8, as amended: the children of the root of the report are, in the
    order of the results, what the results contribute: the roots of its
    package forest for a result of a language-package type without lock
    file, one node with that forest below it for another result of class OS
    package or language package, and nothing for any other result. *)
Theorem root_children (o : nat → RangeOrder) (fuel : nat) (r : types.Report.t)
    (h : heap) :
  heap_closed h →
  (∀ result, result ∈ types.Report.Results r →
     length (types.Result.Packages result) < fuel) →
  (∃ err, MarshalReport o fuel r h = Some (Failed err, h))
  ∨ ∃ root h' c,
      MarshalReport o fuel r h = Some (Done root, h') ∧ h' !! root = Some c ∧
      length (core.Component.Components c)
      = contributions o (types.Report.Metadata r) 0 (types.Report.Results r) ∧
      ∀ n, unfold n h' <$> core.Component.Components c
           = reportTrees o fuel n (types.Report.Metadata r) 0 (types.Report.Results r).
Proof.
  intros Hh Hfuel. pose proof (MarshalReport_spec o fuel r h Hh Hfuel) as Hspec.
  destruct (rootError r) as [err|]; [left; by exists err|]. right.
  destruct Hspec as (c0 & h' & _ & Hrun & Htree).
  exists (length h), h'.
  assert (∃ c, h' !! length h = Some c) as [c Hc].
  { specialize (Htree 0). simpl in Htree. destruct (h' !! length h); [by eexists|done]. }
  assert (∀ n, unfold n h' <$> core.Component.Components c
               = reportTrees o fuel n (types.Report.Metadata r) 0 (types.Report.Results r))
    as Hch.
  { intros n. specialize (Htree n). simpl in Htree. rewrite Hc in Htree. by simplify_eq. }
  exists c. split_and!; [done..| |done].
  by rewrite <-(length_fmap (unfold 0 h')), Hch, reportTrees_length.
Qed.








End GraphProperties.

(** ** Failing conversions *)


Section FailingConversion.
Variable conv : Package.t → outcome (option core.Component.t).
Variable pkgs : gmap string Package.t.
Hypothesis conv_leaf :
  ∀ pkg c, conv pkg = Done (Some c) → core.Component.Components c = [].
(** The conversion may yield no node, but it reports no error. *)
Hypothesis conv_no_error : ∀ pkg err, conv pkg ≠ Failed err.




End FailingConversion.

Section ConversionProperties.
Context `{Externals}.

End ConversionProperties.

(** * Sample inputs *)

(** Collaborators for the examples: the names that Trivy uses, the plain
    version as formatted version, and a package-URL parser that rejects the
    string "invalid". *)
Definition sample_externals : Externals :=
  {| NodePkg := "node-pkg"; PythonPkg := "python-pkg"; GemSpec := "gemspec";
     Jar := "jar"; CondaPkg := "conda-pkg";
     ClassOSPkg := "os-pkgs"; ClassLangPkg := "lang-pkgs";
     Namespace := "aquasecurity:trivy:"; TypeOCI := "oci";
     FormatVersion := ftypes.Package.Version;
     purl_New := fun _ _ _ => Done None;
     purl_FromString := fun s =>
       if String.eqb s "invalid" then Failed "purl scheme is not pkg" else Done None;
     purl_WithPath := fun p path =>
       match p with
       | Some pu => Some (purl.PackageURL.mk pu path)
       | None => None
       end |}.

(** A package with the given ID, edges and [Indirect] flag. *)
Definition sample_package (id : string) (deps : list string) (indirect : bool)
    : ftypes.Package.t :=
  ftypes.Package.mk id id (ftypes.PkgIdentifier.mk None) "1.0.0" "" 0 "" "" "" 0
    [] "" "" indirect deps (ftypes.Layer.mk "" "") "" "".

Definition sample_metadata : types.Metadata.t :=
  types.Metadata.mk 0 None "" [] [] [].

Definition sample_report (ty : ftypes.ArtifactType) (results : list types.Result.t)
    : types.Report.t :=
  types.Report.mk 2 "app" ty sample_metadata results
    (ftypes.Component.mk "application" "app" "" "" []).

(** * The claims of the design that the marshaler does not meet *)

Section Claims.
Context `{Externals}.





(** The children of the root as the design states them: one subtree for
    each result. *)
Definition one_subtree_per_result (o : nat → RangeOrder) (fuel : nat)
    (r : types.Report.t) (h : heap) : Prop :=
  ∀ root h' c, MarshalReport o fuel r h = Some (Done root, h') →
    h' !! root = Some c →
    length (core.Component.Components c) = length (types.Report.Results r).

End Claims.

(** The heap at the end of a run. *)
Definition heap_of {A} (run : option (outcome A * heap)) : heap :=
  match run with
  | Some (_, h) => h
  | None => []
  end.



(** Two direct packages without edges, of a type without lock file. *)
Definition pair_result : types.Result.t :=
  types.Result.mk "" "lang-pkgs" "node-pkg"
    [ sample_package "A" [] false; sample_package "B" [] false ] [].

Definition pair_report : types.Report.t :=
  sample_report ftypes.ArtifactFilesystem [pair_result].






(** C8, counterexample: the one result of [pair_report] is of a type without
    lock file and has two root packages, so the root has two children for
    one result. *)
Lemma one_subtree_per_result_fails :
  ¬ one_subtree_per_result (H := sample_externals) (fun _ => range_sorted) 3
      pair_report [].
Proof.
  intros Hc.
  set (run := MarshalReport (H := sample_externals) (fun _ => range_sorted) 3
                pair_report []).
  assert (run = Some (Done 0, heap_of run)) as Hrun by (vm_compute; reflexivity).
  assert (∃ c, heap_of run !! 0 = Some c
               ∧ length (core.Component.Components c) = 2) as (c & Hc0 & Hlen).
  { eexists. split; vm_compute; reflexivity. }
  specialize (Hc _ _ _ Hrun Hc0). rewrite Hlen in Hc. discriminate Hc.
Qed.



(** * The properties at sample inputs *)

(** A result of a configuration scanner. *)
Definition config_result : types.Result.t :=
  types.Result.mk "Dockerfile" "config" "dockerfile" [] [].

(** A CycloneDX document whose metadata component has a package URL that
    does not parse. *)
Definition unparsable_report : types.Report.t :=
  types.Report.mk 2 "app" ftypes.ArtifactCycloneDX sample_metadata [config_result]
    (ftypes.Component.mk "application" "app" "" "invalid" []).



(** The Maven package of group com.acme and artifact lib, resolved to the
    version 2.3.0. *)
Definition maven_package : Package.t :=
  {| Package.Type_ := "pom";
     Package.Metadata := sample_metadata;
     Package.Package :=
       ftypes.Package.mk "com.acme:lib:2.3.0" "com.acme:lib"
         (ftypes.PkgIdentifier.mk
            (Some (packageurl.PackageURL.mk "maven" "com.acme" "lib" "2.3.0")))
         "2.3.0-SNAPSHOT" "" 0 "" "" "" 0 [] "" "" false []
         (ftypes.Layer.mk "" "") "" "";
     Package.Vulnerabilities := [] |}.

Section Samples.
#[local] Existing Instance sample_externals.

(** C10 at a result of a configuration scanner: nothing is added. *)
Lemma marshalResult_other_dropped_witness :
  let result := config_result in
  types.Result.Type_ result ∉ [NodePkg; PythonPkg; GemSpec; Jar; CondaPkg] ∧
  types.Result.Class result ≠ ClassOSPkg ∧
  types.Result.Class result ≠ ClassLangPkg ∧
  marshalResult range_sorted 1 sample_metadata result [] = Some (Done [], []).
Proof.
  intros result.
  assert (types.Result.Type_ result ∉ [NodePkg; PythonPkg; GemSpec; Jar; CondaPkg])
    as H1 by compute_done.
  assert (types.Result.Class result ≠ ClassOSPkg) as H2 by compute_done.
  assert (types.Result.Class result ≠ ClassLangPkg) as H3 by compute_done.
  split_and!; [exact H1|exact H2|exact H3|].
  exact (marshalResult_other_dropped range_sorted 1 sample_metadata result [] H1 H2 H3).
Defined.

(** C7 at a CycloneDX document whose package URL does not parse. *)
Lemma MarshalReport_fails_iff_witness :
  let o := fun _ : nat => range_sorted in
  let fuel := 1 in
  let r := unparsable_report in
  let h : heap := [] in
  heap_closed h ∧
  (∀ result, result ∈ types.Report.Results r →
     length (types.Result.Packages result) < fuel) ∧
  let oci_fails :=
    types.Report.ArtifactType r = ftypes.ArtifactContainerImage
    ∧ ∃ err, purl_New TypeOCI (types.Report.Metadata r) ftypes.Package.zero
             = Failed err in
  let parse_fails :=
    types.Report.ArtifactType r = ftypes.ArtifactCycloneDX
    ∧ ftypes.Component.PackageURL (types.Report.CycloneDX r) ≠ ""
    ∧ ∃ err, purl_FromString (ftypes.Component.PackageURL (types.Report.CycloneDX r))
             = Failed err in
  ((∃ err h', MarshalReport o fuel r h = Some (Failed err, h'))
   ↔ oci_fails ∨ parse_fails)
  ∧ (∀ err h', MarshalReport o fuel r h = Some (Failed err, h') → h' = h)
  ∧ ((∃ root h', MarshalReport o fuel r h = Some (Done root, h'))
     ↔ ¬ (oci_fails ∨ parse_fails)).
Proof.
  intros o fuel r h.
  assert (∀ result, result ∈ types.Report.Results r →
            length (types.Result.Packages result) < fuel) as Hfuel.
  { intros result ->%list_elem_of_singleton. simpl. lia. }
  split_and!; [exact heap_closed_nil|exact Hfuel|].
  exact (MarshalReport_fails_iff o fuel r h heap_closed_nil Hfuel).
Defined.




(** C8 at the report with one result of two packages without lock file. *)
Lemma root_children_witness :
  let o := fun _ : nat => range_sorted in
  let fuel := 3 in
  let r := pair_report in
  let h : heap := [] in
  heap_closed h ∧
  (∀ result, result ∈ types.Report.Results r →
     length (types.Result.Packages result) < fuel) ∧
  ((∃ err, MarshalReport o fuel r h = Some (Failed err, h))
   ∨ ∃ root h' c,
       MarshalReport o fuel r h = Some (Done root, h') ∧ h' !! root = Some c ∧
       length (core.Component.Components c)
       = contributions o (types.Report.Metadata r) 0 (types.Report.Results r) ∧
       ∀ n, unfold n h' <$> core.Component.Components c
            = reportTrees o fuel n (types.Report.Metadata r) 0 (types.Report.Results r)).
Proof.
  intros o fuel r h.
  assert (∀ result, result ∈ types.Report.Results r →
            length (types.Result.Packages result) < fuel) as Hfuel.
  { intros result ->%list_elem_of_singleton. simpl. lia. }
  split_and!; [exact heap_closed_nil|exact Hfuel|].
  exact (root_children o fuel r h heap_closed_nil Hfuel).
Defined.



(** The identity law of the design: name, group and version of the node of
    [maven_package] come from its package URL. *)
Example pkgComponent_maven :
  ∃ c, pkgComponent maven_package = Done (Some c)
       ∧ core.Component.Name c = "lib"
       ∧ core.Component.Group c = "com.acme"
       ∧ core.Component.Version c = "2.3.0".
Proof. eexists. split_and!; reflexivity. Qed.
End Samples.

(** * Further properties of the marshaler *)

(** ** Decimal numerals *)

Lemma to_int_proper (n : Z) :
  Z.to_int n ≠ Decimal.Pos Decimal.Nil ∧ Z.to_int n ≠ Decimal.Neg Decimal.Nil.
Proof.
  destruct n as [|p|p]; simpl; split; try discriminate;
    intros [= Hp]; by apply DecimalPos.Unsigned.to_uint_nonnil in Hp.
Qed.

Lemma Itoa_inj (n n' : Z) : Itoa n = Itoa n' → n = n'.
Proof.
  unfold Itoa. intros Heq.
  apply (f_equal NilZero.int_of_string) in Heq.
  destruct (to_int_proper n), (to_int_proper n').
  rewrite !NilZero.isi in Heq by done.
  injection Heq as Heq. by apply DecimalZ.to_int_inj.
Qed.

Lemma Itoa_nonempty (n : Z) : Itoa n ≠ "".
Proof.
  unfold Itoa. intros Heq.
  destruct (to_int_proper n).
  pose proof (NilZero.isi (Z.to_int n)) as Hisi. rewrite Heq in Hisi.
  by specialize (Hisi ltac:(done) ltac:(done)).
Qed.

Lemma Itoa_zero (n : Z) : Itoa n = "0" ↔ n = 0%Z.
Proof.
  split; [|by intros ->].
  intros Heq. by apply Itoa_inj.
Qed.

(** ** The component of a package *)

Section PackageComponent.
Context `{Externals}.

(** The properties that [pkgComponent] builds for a package, before they
    are filtered. *)
Lemma pkgComponent_properties pkg :
  ∃ c, pkgComponent pkg = Done (Some c) ∧
    core.Component.Properties c
    = filterProperties
        (let p := Package.Package pkg in
         [ mkProp PropertyPkgID (ftypes.Package.ID p);
           mkProp PropertyPkgType (Package.Type_ pkg);
           mkProp PropertyFilePath (ftypes.Package.FilePath p);
           mkProp PropertySrcName (ftypes.Package.SrcName p);
           mkProp PropertySrcVersion (ftypes.Package.SrcVersion p);
           mkProp PropertySrcRelease (ftypes.Package.SrcRelease p);
           mkProp PropertySrcEpoch (Itoa (ftypes.Package.SrcEpoch p));
           mkProp PropertyModularitylabel (ftypes.Package.Modularitylabel p);
           mkProp PropertyLayerDigest (ftypes.Layer.Digest (ftypes.Package.Layer p));
           mkProp PropertyLayerDiffID (ftypes.Layer.DiffID (ftypes.Package.Layer p)) ]).
Proof.
  unfold pkgComponent.
  destruct (ftypes.PkgIdentifier.PURL _) as [pu|]; [destruct (_ || _)|];
    eexists; split; reflexivity.
Qed.

Lemma elem_of_filterProperties p props :
  p ∈ filterProperties props
  ↔ p ∈ props ∧ core.Property.Value p ≠ ""
    ∧ ¬ (core.Property.Name p = PropertySrcEpoch ∧ core.Property.Value p = "0").
Proof.
  unfold filterProperties. rewrite !list_elem_of_In, filter_In.
  rewrite negb_true_iff, orb_false_iff, andb_false_iff, !String.eqb_neq.
  split; intros (? & Hv & Hn); split_and!; try done.
  - intros [Hname Hval]. by destruct Hn.
  - destruct (decide (core.Property.Name p = PropertySrcEpoch)); [right|left]; naive_solver.
Qed.

Lemma filterProperties_length props :
  length (filterProperties props) ≤ length props.
Proof.
  unfold filterProperties. induction props as [|p props IH]; simpl; [done|].
  destruct (negb _); simpl; lia.
Qed.

(** X1: [pkgComponent] reports no error and returns a component for every
    package: a library without children that carries the vulnerabilities of
    the package, at most ten properties, none of them with an empty value
    and none in a namespace. *)
Theorem pkgComponent_shape (pkg : Package.t) :
  ∃ c, pkgComponent pkg = Done (Some c)
       ∧ core.Component.Type_ c = cdx.ComponentTypeLibrary
       ∧ core.Component.Components c = []
       ∧ core.Component.Vulnerabilities c = Package.Vulnerabilities pkg
       ∧ length (core.Component.Properties c) ≤ 10
       ∧ ∀ p, p ∈ core.Component.Properties c →
           core.Property.Value p ≠ "" ∧ core.Property.Namespace p = "".
Proof.
  destruct (pkgComponent_properties pkg) as (c & Hc & Hprops).
  exists c. split; [done|].
  assert (core.Component.Type_ c = cdx.ComponentTypeLibrary
          ∧ core.Component.Vulnerabilities c = Package.Vulnerabilities pkg)
    as [Hty Hvs].
  { revert Hc. unfold pkgComponent.
    destruct (ftypes.PkgIdentifier.PURL _) as [pu|]; [destruct (_ || _)|];
      by intros [= <-]. }
  split_and!; [done|by eapply pkgComponent_leaf|done| |].
  - rewrite Hprops. etrans; [apply filterProperties_length|]. simpl. lia.
  - intros p. rewrite Hprops, elem_of_filterProperties.
    intros (Hin & Hv & _). split; [done|].
    cbv zeta in Hin. rewrite !elem_of_cons, elem_of_nil in Hin.
    by destruct Hin as [->|[->|[->|[->|[->|[->|[->|[->|[->|[->|[]]]]]]]]]]].
Qed.

(** X2: the properties of the component of a package name what the package
    has: the package ID is a property exactly when it is not empty, and the
    source epoch is a property, as a decimal numeral, exactly when it is not
    zero.  No property other than these holds the name of the package ID or
    of the source epoch. *)
Theorem pkgComponent_id_and_epoch (pkg : Package.t) :
  ∃ c, pkgComponent pkg = Done (Some c)
       ∧ (∀ v, mkProp PropertyPkgID v ∈ core.Component.Properties c
               ↔ v = Package.ID pkg ∧ v ≠ "")
       ∧ (∀ v, mkProp PropertySrcEpoch v ∈ core.Component.Properties c
               ↔ v = Itoa (ftypes.Package.SrcEpoch (Package.Package pkg))
                 ∧ ftypes.Package.SrcEpoch (Package.Package pkg) ≠ 0%Z).
Proof.
  destruct (pkgComponent_properties pkg) as (c & Hc & Hprops).
  exists c. split; [done|]. rewrite Hprops. cbv zeta.
  split; intros v; rewrite elem_of_filterProperties;
    rewrite !elem_of_cons, elem_of_nil; unfold mkProp; simpl.
  - split.
    + intros (Hin & Hv & _).
      destruct Hin as [Hin|[Hin|[Hin|[Hin|[Hin|[Hin|[Hin|[Hin|[Hin|[Hin|[]]]]]]]]]]];
        try discriminate Hin.
      injection Hin as ->. done.
    + intros [-> Hv]. split_and!; [by left|done|].
      intros [Hn _]. discriminate Hn.
  - split.
    + intros (Hin & Hv & Hz).
      destruct Hin as [Hin|[Hin|[Hin|[Hin|[Hin|[Hin|[Hin|[Hin|[Hin|[Hin|[]]]]]]]]]]];
        try discriminate Hin.
      injection Hin as ->. split; [done|].
      intros H0. apply Hz. split; [done|]. by rewrite H0.
    + intros [-> Hne]. split_and!.
      * do 6 right. by left.
      * apply Itoa_nonempty.
      * intros [_ Hz]. by apply Itoa_zero in Hz.
Qed.
End PackageComponent.

(** ** The package map and the vulnerabilities *)

Section PackageMap.
Context `{Externals}.

Lemma packageMap_fold_last metadata result l2 :
  ∀ (m : gmap string Package.t) k X,
    m !! k = Some X → (∀ q, q ∈ l2 → pkgID q ≠ k) →
    foldl (fun m pkg => <[pkgID pkg := wrapPackage metadata result pkg]> m) m l2 !! k
    = Some X.
Proof.
  induction l2 as [|q l2 IH]; intros m k X Hm Hl2; simpl; [done|].
  apply IH.
  - rewrite lookup_insert_ne; [done|]. apply Hl2. by left.
  - intros q' Hq'. apply Hl2. by right.
Qed.

(** X3: the package map holds, under the key of a package, the last
    package of the list with that key: a package is found under its key
    unless a later package of the list has the same key, and every entry of
    the map is a package of the list under its key. *)
Theorem packageMap_last_wins (metadata : types.Metadata.t) (result : types.Result.t)
    (l1 l2 : list ftypes.Package.t) (pkg : ftypes.Package.t) :
  types.Result.Packages result = l1 ++ pkg :: l2 →
  (∀ q, q ∈ l2 → pkgID q ≠ pkgID pkg) →
  packageMap metadata result !! pkgID pkg = Some (wrapPackage metadata result pkg)
  ∧ ∀ k X, packageMap metadata result !! k = Some X →
      ∃ q, q ∈ types.Result.Packages result ∧ k = pkgID q
           ∧ X = wrapPackage metadata result q.
Proof.
  intros Hl Hl2. split; [|apply packageMap_lookup].
  unfold packageMap. rewrite Hl, foldl_app. simpl.
  apply packageMap_fold_last; [|done]. by rewrite lookup_insert_eq.
Qed.

(** X4: the component of a package of the package map carries exactly the
    vulnerabilities of the result whose key is the key of the package, in
    the order of the result.  The key of a vulnerability is its package ID
    and, when that is empty, its package name and installed version joined
    by an at sign. *)
Theorem vulnerabilities_by_key (metadata : types.Metadata.t) (result : types.Result.t)
    (k : string) (X : Package.t) :
  packageMap metadata result !! k = Some X →
  ∃ c, pkgComponent X = Done (Some c) ∧
    core.Component.Vulnerabilities c
    = filter (fun v => vulnKey v = k) (types.Result.Vulnerabilities result) ∧
    ∀ v, v ∈ core.Component.Vulnerabilities c
         ↔ v ∈ types.Result.Vulnerabilities result
           ∧ (if decide (types.DetectedVulnerability.PkgID v = "")
              then types.DetectedVulnerability.PkgName v +:+ "@"
                   +:+ types.DetectedVulnerability.InstalledVersion v = k
              else types.DetectedVulnerability.PkgID v = k).
Proof.
  intros HX.
  destruct (packageMap_lookup _ _ _ _ HX) as (q & _ & -> & ->).
  destruct (pkgComponent_total (wrapPackage metadata result q)) as [c Hc].
  exists c. split; [done|].
  assert (core.Component.Vulnerabilities c = vulnsOf result (pkgID q)) as ->.
  { revert Hc. unfold pkgComponent.
    destruct (ftypes.PkgIdentifier.PURL _) as [pu|]; [destruct (_ || _)|];
      by intros [= <-]. }
  assert (vulnsOf result (pkgID q)
          = filter (fun v => vulnKey v = pkgID q) (types.Result.Vulnerabilities result))
    as Hfilter.
  { unfold vulnsOf. induction (types.Result.Vulnerabilities result) as [|v vs IH];
      [done|]. simpl. rewrite filter_cons, IH.
    destruct (String.eqb_spec (vulnKey v) (pkgID q)), (decide (vulnKey v = pkgID q)); done. }
  split; [done|]. intros v. rewrite Hfilter, list_elem_of_filter.
  unfold vulnKey.
  destruct (String.eqb_spec (types.DetectedVulnerability.PkgID v) ""),
    (decide (types.DetectedVulnerability.PkgID v = "")); naive_solver.
Qed.
End PackageMap.

(** ** Prefixes *)

Lemma HasPrefix_app (s p : string) :
  HasPrefix s p = true ↔ ∃ t, s = p +:+ t.
Proof.
  revert s. induction p as [|a p IH]; intros s.
  - destruct s; simpl; split; eauto.
  - destruct s as [|b s]; simpl; [split; [done|by intros [t Ht]]|].
    destruct (Ascii.eqb_spec a b) as [->|Hne].
    + rewrite IH. split; intros [t Ht]; exists t; [by rewrite Ht|by injection Ht].
    + split; [done|]. intros [t Ht]. by injection Ht as -> _.
Qed.

Lemma substring_all (s : string) : String.substring 0 (String.length s) s = s.
Proof. induction s as [|a s IH]; simpl; [done|]. by rewrite IH. Qed.

Lemma substring_skip (p t : string) n :
  String.substring (String.length p) n (p +:+ t) = String.substring 0 n t.
Proof. induction p as [|a p IH]; simpl; [done|]. apply IH. Qed.

Lemma length_app_string (p t : string) :
  String.length (p +:+ t) = String.length p + String.length t.
Proof. induction p as [|a p IH]; simpl; [done|]. by rewrite IH. Qed.

Lemma TrimPrefix_app (p t : string) : TrimPrefix (p +:+ t) p = t.
Proof.
  unfold TrimPrefix.
  assert (HasPrefix (p +:+ t) p = true) as -> by (apply HasPrefix_app; eauto).
  rewrite substring_skip, length_app_string.
  replace (String.length p + String.length t - String.length p)
    with (String.length t) by lia.
  apply substring_all.
Qed.

Lemma TrimPrefix_none (s p : string) : HasPrefix s p = false → TrimPrefix s p = s.
Proof. unfold TrimPrefix. by intros ->. Qed.

(** ** The root of the report *)

Section RootComponent.
Context `{Externals}.

(** X5: the component that [toCoreComponent] makes of the metadata
    component of a CycloneDX document has its name, group and type, no
    version and no children, and one property for each of its properties,
    in their order and with their values, none filtered out: a property
    whose name starts with the Trivy namespace is split into the namespace
    and the rest of the name, any other keeps its name and has no
    namespace, so that namespace and name together spell the original
    name. *)
Theorem toCoreComponent_properties (c : ftypes.Component.t) (out : core.Component.t) :
  toCoreComponent c = Done out →
  core.Component.Name out = ftypes.Component.Name c
  ∧ core.Component.Group out = ftypes.Component.Group c
  ∧ core.Component.Type_ out = ftypes.Component.Type_ c
  ∧ core.Component.Version out = ""
  ∧ core.Component.Components out = []
  ∧ (ftypes.Component.PackageURL c = "" → core.Component.PackageURL out = None)
  ∧ Forall2 (fun p q =>
               core.Property.Value q = ftypes.Property.Value p
               ∧ core.Property.Namespace q +:+ core.Property.Name q
                 = ftypes.Property.Name p
               ∧ core.Property.Namespace q
                 = (if HasPrefix (ftypes.Property.Name p) Namespace
                    then Namespace else ""))
            (ftypes.Component.Properties c) (core.Component.Properties out).
Proof.
  unfold toCoreComponent. intros Hout.
  assert (∃ p, (ftypes.Component.PackageURL c = "" → p = None) ∧ out =
            core.Component.with_Properties
              (List.map (fun prop =>
                 let name := ftypes.Property.Name prop in
                 if HasPrefix name Namespace
                 then core.Property.mk Namespace (TrimPrefix name Namespace)
                                       (ftypes.Property.Value prop)
                 else core.Property.mk "" name (ftypes.Property.Value prop))
                 (ftypes.Component.Properties c))
              (core.Component.with_PackageURL p
                 (core.Component.with_Type (ftypes.Component.Type_ c)
                    (core.Component.mk "" (ftypes.Component.Name c)
                       (ftypes.Component.Group c) "" None [] [] "" [] [] []))))
    as (p & Hp & ->).
  { revert Hout.
    destruct (String.eqb_spec (ftypes.Component.PackageURL c) "") as [Heq|Hne].
    - intros [= <-]. by exists None.
    - destruct (purl_FromString _) as [p|err]; [|done].
      intros [= <-]. by exists p. }
  clear Hout. split_and!; try done.
  simpl. apply Forall2_fmap_r, Forall_Forall2_diag, Forall_forall.
  intros prop _. unfold compose. cbv beta zeta.
  destruct (HasPrefix (ftypes.Property.Name prop) Namespace) eqn:Hpre; simpl;
    split_and!; try done.
  apply HasPrefix_app in Hpre as [t Ht]. by rewrite Ht, TrimPrefix_app.
Qed.

(** The properties of the root of an artifact that is not a CycloneDX
    document, before they are filtered. *)
Definition rootProperties (r : types.Report.t) : list core.Property.t :=
  let metadata := types.Report.Metadata r in
  [ mkProp PropertySchemaVersion (Itoa (types.Report.SchemaVersion r)) ]
  ++ match types.Report.ArtifactType r with
     | ftypes.ArtifactContainerImage =>
         [ mkProp PropertyImageID (types.Metadata.ImageID metadata) ]
     | _ => []
     end
  ++ (if (types.Metadata.Size metadata =? 0)%Z then []
      else [ mkProp PropertySize (Itoa (types.Metadata.Size metadata)) ])
  ++ (if 0 <? length (types.Metadata.RepoDigests metadata)
      then [ mkProp PropertyRepoDigest (Join (types.Metadata.RepoDigests metadata) ",") ]
      else [])
  ++ (if 0 <? length (types.Metadata.DiffIDs metadata)
      then [ mkProp PropertyDiffID (Join (types.Metadata.DiffIDs metadata) ",") ]
      else [])
  ++ (if 0 <? length (types.Metadata.RepoTags metadata)
      then [ mkProp PropertyRepoTag (Join (types.Metadata.RepoTags metadata) ",") ]
      else []).

Lemma rootComponent_properties r (h : heap) a h' :
  rootComponent r h = (Done a, h') →
  types.Report.ArtifactType r ≠ ftypes.ArtifactCycloneDX →
  ∃ c, a = length h ∧ h' = h ++ [c]
       ∧ core.Component.Name c = types.Report.ArtifactName r
       ∧ core.Component.Components c = []
       ∧ core.Component.Type_ c
         = match types.Report.ArtifactType r with
           | ftypes.ArtifactContainerImage | ftypes.ArtifactVM =>
               cdx.ComponentTypeContainer
           | ftypes.ArtifactFilesystem | ftypes.ArtifactRepository =>
               cdx.ComponentTypeApplication
           | _ => ""
           end
       ∧ core.Component.Properties c = filterProperties (rootProperties r).
Proof.
  unfold rootComponent, rootProperties, alloc. intros Hrun Hty. revert Hrun.
  set (md := types.Report.Metadata r).
  assert (∀ (b : bool) (props : list core.Property.t) x,
            (if b then props ++ [x] else props) = props ++ (if b then [x] else []))
    as Hif by (intros [] ? ?; by rewrite ?app_nil_r).
  assert (∀ (b : bool) (props : list core.Property.t) x,
            (if b then props else props ++ [x]) = props ++ (if b then [] else [x]))
    as Hif' by (intros [] ? ?; by rewrite ?app_nil_r).
  rewrite !Hif, !Hif'.
  destruct (types.Report.ArtifactType r) eqn:Hart; try done.
  - destruct (purl_New _ _ _) as [[p|]|err]; [| |done];
      intros [= <- <-]; eexists; split_and!; try done;
      simpl; by rewrite <- ?app_assoc.
  - intros [= <- <-]; eexists; split_and!; try done; simpl; by rewrite <- ?app_assoc.
  - intros [= <- <-]; eexists; split_and!; try done; simpl; by rewrite <- ?app_assoc.
  - intros [= <- <-]; eexists; split_and!; try done; simpl; by rewrite <- ?app_assoc.
  - intros [= <- <-]; eexists; split_and!; try done; simpl; by rewrite <- ?app_assoc.
Qed.

(** X6: for an artifact that is not a CycloneDX document, [rootComponent]
    adds one node to the heap, without children and named after the
    artifact: a container for a container image or a virtual machine, an
    application for a file system or a repository, and of no type
    otherwise.  Its first property is the schema version; none of its
    properties has an empty value; the image ID is a property exactly for a
    container image with an image ID, and the size exactly when it is not
    zero. *)
Theorem rootComponent_node (r : types.Report.t) (h : heap) (a : addr) (h' : heap) :
  rootComponent r h = (Done a, h') →
  types.Report.ArtifactType r ≠ ftypes.ArtifactCycloneDX →
  ∃ c, a = length h ∧ h' = h ++ [c]
       ∧ core.Component.Name c = types.Report.ArtifactName r
       ∧ core.Component.Components c = []
       ∧ core.Component.Type_ c
         = match types.Report.ArtifactType r with
           | ftypes.ArtifactContainerImage | ftypes.ArtifactVM =>
               cdx.ComponentTypeContainer
           | ftypes.ArtifactFilesystem | ftypes.ArtifactRepository =>
               cdx.ComponentTypeApplication
           | _ => ""
           end
       ∧ (∃ rest, core.Component.Properties c
                  = mkProp PropertySchemaVersion (Itoa (types.Report.SchemaVersion r))
                    :: rest)
       ∧ (∀ p, p ∈ core.Component.Properties c → core.Property.Value p ≠ "")
       ∧ (∀ v, mkProp PropertyImageID v ∈ core.Component.Properties c
               ↔ types.Report.ArtifactType r = ftypes.ArtifactContainerImage
                 ∧ v = types.Metadata.ImageID (types.Report.Metadata r) ∧ v ≠ "")
       ∧ (∀ v, mkProp PropertySize v ∈ core.Component.Properties c
               ↔ v = Itoa (types.Metadata.Size (types.Report.Metadata r))
                 ∧ types.Metadata.Size (types.Report.Metadata r) ≠ 0%Z).
Proof.
  intros Hrun Hty.
  destruct (rootComponent_properties r h a h' Hrun Hty)
    as (c & -> & -> & Hname & Hleaf & Hkind & Hprops).
  exists c. split_and!; try done.
  - rewrite Hprops. unfold rootProperties, filterProperties. simpl.
    destruct (String.eqb_spec (Itoa (types.Report.SchemaVersion r)) "") as [He|_];
      [by apply Itoa_nonempty in He|]. simpl. eauto.
  - intros p. rewrite Hprops, elem_of_filterProperties. naive_solver.
  - intros v. rewrite Hprops, elem_of_filterProperties. unfold rootProperties.
    rewrite !elem_of_app, elem_of_cons, elem_of_nil. unfold mkProp. simpl.
    split.
    + intros (Hin & Hv & _).
      destruct Hin as [[Hin|[]]|[Hin|[Hin|[Hin|[Hin|Hin]]]]]; try discriminate Hin.
      * destruct (types.Report.ArtifactType r); try by apply elem_of_nil in Hin.
        apply list_elem_of_singleton in Hin. by injection Hin as ->.
      * destruct (_ =? _)%Z; [by apply elem_of_nil in Hin|].
        apply list_elem_of_singleton in Hin. discriminate Hin.
      * destruct (0 <? _); [|by apply elem_of_nil in Hin].
        apply list_elem_of_singleton in Hin. discriminate Hin.
      * destruct (0 <? _); [|by apply elem_of_nil in Hin].
        apply list_elem_of_singleton in Hin. discriminate Hin.
      * destruct (0 <? _); [|by apply elem_of_nil in Hin].
        apply list_elem_of_singleton in Hin. discriminate Hin.
    + intros (Hart & -> & Hv). rewrite Hart. split_and!; [|done|].
      * right. left. by apply list_elem_of_singleton.
      * intros [Hn _]. discriminate Hn.
  - intros v. rewrite Hprops, elem_of_filterProperties. unfold rootProperties.
    rewrite !elem_of_app, elem_of_cons, elem_of_nil. unfold mkProp. simpl.
    split.
    + intros (Hin & Hv & _).
      destruct Hin as [[Hin|[]]|[Hin|[Hin|[Hin|[Hin|Hin]]]]]; try discriminate Hin.
      * destruct (types.Report.ArtifactType r); try by apply elem_of_nil in Hin.
        apply list_elem_of_singleton in Hin. discriminate Hin.
      * destruct (Z.eqb_spec (types.Metadata.Size (types.Report.Metadata r)) 0);
          [by apply elem_of_nil in Hin|].
        apply list_elem_of_singleton in Hin. by injection Hin as ->.
      * destruct (0 <? _); [|by apply elem_of_nil in Hin].
        apply list_elem_of_singleton in Hin. discriminate Hin.
      * destruct (0 <? _); [|by apply elem_of_nil in Hin].
        apply list_elem_of_singleton in Hin. discriminate Hin.
      * destruct (0 <? _); [|by apply elem_of_nil in Hin].
        apply list_elem_of_singleton in Hin. discriminate Hin.
    + intros (-> & Hne). split_and!; [|apply Itoa_nonempty|].
      * right. right. left.
        destruct (Z.eqb_spec (types.Metadata.Size (types.Report.Metadata r)) 0);
          [done|]. by apply list_elem_of_singleton.
      * intros [Hn _]. discriminate Hn.
Qed.
End RootComponent.

(** ** The edges of the forest *)

Section Edges.
Context `{Externals}.



Lemma marshalRoots_skipped conv (pkgs : gmap string Package.t) fuel parents l :
  (∀ k pkg, (k, pkg) ∈ l → is_root parents pkg = false) →
  ∀ acc (h : heap), marshalRoots conv pkgs fuel parents l acc h = Some (Done acc, h).
Proof.
  induction l as [|[k pkg] l IH]; intros Hl acc h; simpl; [done|].
  assert (is_root parents pkg = false) as Hskip by (eapply Hl; by left).
  apply negb_false_iff in Hskip. rewrite Hskip.
  apply IH. intros. eapply Hl. by right.
Qed.

(** X8: when every package of a result is marked [Indirect] and is listed
    in [DependsOn] by a package of the result, as in a cycle of indirect
    packages, [marshalPackages] returns no root and adds no node: the
    packages of the result are left out of the graph. *)
Theorem indirect_with_parents_dropped (o : RangeOrder) (fuel : nat)
    (metadata : types.Metadata.t) (result : types.Result.t) (h : heap) :
  (∀ pkg, pkg ∈ types.Result.Packages result →
     ftypes.Package.Indirect pkg = true
     ∧ ∃ q, q ∈ types.Result.Packages result
            ∧ ftypes.Package.ID pkg ∈ ftypes.Package.DependsOn q) →
  marshalPackages o fuel metadata result h = Some (Done [], h).
Proof.
  intros Hall. unfold marshalPackages, marshalPackagesWith.
  apply marshalRoots_skipped. intros k X Hin.
  apply range_lookup, packageMap_lookup in Hin as (pkg & Hpkg & _ & ->).
  apply is_root_false. by apply Hall.
Qed.
End Edges.

(** ** Links that lead nowhere *)

(** No node at an address from [lo] on has a nil child. *)
Definition nonil_from (h : heap) (lo : nat) : Prop :=
  ∀ a c, lo ≤ a → h !! a = Some c → None ∉ core.Component.Components c.

Lemma nonil_from_alloc (h : heap) lo c :
  nonil_from h lo → core.Component.Components c = [] → nonil_from (h ++ [c]) lo.
Proof.
  intros Hh Hc a c' Ha Hlook.
  apply lookup_app_Some in Hlook as [Hlook|[_ Hlook]]; [by eapply Hh|].
  apply list_lookup_singleton_Some in Hlook as [_ <-]. rewrite Hc. apply not_elem_of_nil.
Qed.

Lemma nonil_from_app (h hs : heap) lo :
  nonil_from (h ++ hs) lo → nonil_from h lo.
Proof.
  intros Hh a c Ha Hlook. eapply Hh; [done|]. by apply lookup_app_l_Some.
Qed.

Lemma nonil_from_append (h : heap) lo c cs :
  nonil_from h lo → None ∉ cs → nonil_from (append_children c cs h) lo.
Proof.
  intros Hh Hcs a c' Ha. unfold append_children.
  destruct (decide (a = c)) as [->|Hne].
  - rewrite list_lookup_alter_eq. destruct (h !! c) as [c0|] eqn:Hc; [|done].
    intros [= <-]. simpl. rewrite elem_of_app. intros [Hin|Hin]; [|done].
    by eapply Hh.
  - rewrite list_lookup_alter_ne by done. by apply Hh.
Qed.

Lemma nonil_from_set (h : heap) lo c cs :
  nonil_from h lo → None ∉ cs → nonil_from (set_children c cs h) lo.
Proof.
  intros Hh Hcs a c' Ha. unfold set_children.
  destruct (decide (a = c)) as [->|Hne].
  - rewrite list_lookup_alter_eq. destruct (h !! c) as [c0|] eqn:Hc; [|done].
    by intros [= <-].
  - rewrite list_lookup_alter_ne by done. by apply Hh.
Qed.

Section NoNil.
Variable conv : Package.t → outcome (option core.Component.t).
Variable pkgs : gmap string Package.t.
Hypothesis conv_leaf :
  ∀ pkg c, conv pkg = Done (Some c) → core.Component.Components c = [].
Hypothesis conv_total : ∀ pkg, ∃ c, conv pkg = Done (Some c).

Definition nonil_ok (rec : Package.t → heap * memo → result_of (option addr)) : Prop :=
  ∀ pkg k h m r h' m' lo,
    pkgs !! k = Some pkg → memo_valid (length h) m → heap_closed h →
    nonil_from h lo →
    rec pkg (h, m) = Some (r, (h', m')) → nonil_from h' lo.

Lemma marshalDeps_nonil rec :
  call_ok rec → share_ok conv pkgs rec → nonil_ok rec →
  ∀ deps c h m r h' m' lo,
    memo_valid (length h) m → heap_closed h → c < length h → nonil_from h lo →
    marshalDeps pkgs rec c deps (h, m) = Some (r, (h', m')) →
    nonil_from h' lo.
Proof.
  intros Hcall Hshare Hrec. induction deps as [|dep deps IH];
    intros c h m r h' m' lo Hm Hh Hc Hlo Hrun; simpl in Hrun.
  { by injection Hrun as _ <- _. }
  destruct (pkgs !! dep) as [childPkg|] eqn:Hdep; [|by eapply IH].
  destruct (rec childPkg (h, m)) as [[[child|err] [h1 m1]]|] eqn:Hchild; [| |done].
  - destruct (Hcall _ _ _ _ _ _ Hm Hh Hchild) as ([hs ->] & Hh1 & Hg & Hr).
    destruct (Hshare _ _ _ _ _ _ _ Hdep Hm Hh Hchild) as ([a [= ->]] & _).
    pose proof (memo_grows_valid _ _ _ _ Hm Hg) as Hm1.
    specialize (Hr _ eq_refl). symmetry in Hr. apply Hm1 in Hr.
    eapply (IH c _ m1); [..|exact Hrun].
    + by rewrite append_children_length.
    + apply append_children_closed; [done|].
      intros b Hb. apply list_elem_of_singleton in Hb. by injection Hb as ->.
    + rewrite append_children_length, length_app. lia.
    + apply nonil_from_append; [by eapply (Hrec _ dep); [..|exact Hchild]|].
      intros Hin. by apply list_elem_of_singleton in Hin.
  - injection Hrun as _ <- _. by eapply (Hrec _ dep); [..|exact Hchild].
Qed.

Lemma marshalPackage_nonil fuel : nonil_ok (marshalPackage conv pkgs fuel).
Proof.
  induction fuel as [|fuel IH]; intros pkg k h m r h' m' lo Hk Hm Hh Hlo Hrun;
    simpl in Hrun; [done|].
  destruct (m !! Package.ID pkg) as [c|] eqn:Hmemo; [by injection Hrun as _ <- _|].
  destruct (conv pkg) as [[component|]|err] eqn:Hconv;
    [|by injection Hrun as _ <- _..].
  eapply marshalDeps_nonil; [..|exact Hrun].
  - by apply marshalPackage_inv.
  - by apply marshalPackage_share.
  - done.
  - rewrite length_app. simpl. intros i a.
    destruct (decide (i = Package.ID pkg)) as [->|Hne].
    + rewrite lookup_insert_eq. intros [= <-]. lia.
    + rewrite lookup_insert_ne by done. intros Hi%Hm. lia.
  - apply heap_closed_alloc; [done|by eapply conv_leaf].
  - rewrite length_app. simpl. lia.
  - apply nonil_from_alloc; [done|by eapply conv_leaf].
Qed.

Lemma marshalRoots_nonil fuel parents l lo :
  ∀ acc (h : heap) r h',
    heap_closed h → nonil_from h lo →
    (∀ k pkg, (k, pkg) ∈ l → pkgs !! k = Some pkg) →
    marshalRoots conv pkgs fuel parents l acc h = Some (r, h') →
    nonil_from h' lo.
Proof.
  induction l as [|[k pkg] l IH]; intros acc h r h' Hh Hlo Hin Hrun;
    simpl in Hrun; [by injection Hrun as _ <-|].
  assert (∀ k' pkg', (k', pkg') ∈ l → pkgs !! k' = Some pkg') as Hin'.
  { intros. apply Hin. by right. }
  destruct (_ && _); [by eapply IH|].
  destruct (marshalPackage conv pkgs fuel pkg (h, ∅)) as [[r1 [h1 m1]]|] eqn:Hroot;
    [|done].
  assert (pkgs !! k = Some pkg) as Hk by (apply Hin; by left).
  destruct (marshalPackage_inv conv pkgs conv_leaf fuel _ _ _ _ _ _
              (memo_valid_empty _) Hh Hroot) as (_ & Hh1 & _).
  pose proof (marshalPackage_nonil fuel _ _ _ _ _ _ _ lo Hk
                (memo_valid_empty _) Hh Hlo Hroot) as Hlo1.
  destruct r1 as [[a|]|err]; [by eapply IH..|by injection Hrun as _ <-].
Qed.
End NoNil.

Section Links.
Context `{Externals}.

Lemma marshalPackages_nonil o fuel metadata result (h : heap) roots h' lo :
  heap_closed h → nonil_from h lo →
  marshalPackages o fuel metadata result h = Some (Done roots, h') →
  nonil_from h' lo.
Proof.
  intros Hh Hlo. unfold marshalPackages, marshalPackagesWith.
  apply (marshalRoots_nonil pkgComponent (packageMap metadata result)
           pkgComponent_leaf pkgComponent_total); [done..|].
  intros k pkg. apply range_lookup.
Qed.

Lemma marshalResult_nonil o fuel metadata result (h : heap) out h' lo :
  heap_closed h → nonil_from h lo →
  length (types.Result.Packages result) < fuel →
  marshalResult o fuel metadata result h = Some (Done out, h') →
  nonil_from h' lo.
Proof.
  intros Hh Hlo Hfuel. unfold marshalResult.
  destruct (is_floating result).
  { destruct (marshalPackages _ _ _ _ _) as [[[roots|err] h1]|] eqn:Hrun; [|done..].
    intros [= _ <-]. by eapply marshalPackages_nonil. }
  destruct (has_node result); [|by intros [= _ <-]].
  unfold resultComponent, alloc.
  assert (heap_closed (h ++ [resultNode result (types.Metadata.OS metadata)])) as Hh1.
  { apply heap_closed_alloc; [done|apply resultNode_leaf]. }
  destruct (marshalPackages_spec o fuel metadata result _ Hh1 Hfuel)
    as (roots & h1 & Hrun & _ & _ & _ & Hroots & _).
  rewrite Hrun. intros [= _ <-].
  apply nonil_from_set.
  - eapply marshalPackages_nonil; [exact Hh1| |exact Hrun].
    apply nonil_from_alloc; [done|apply resultNode_leaf].
  - intros Hin. by destruct (Hroots _ Hin) as (? & ? & _).
Qed.

Lemma marshalResults_links o fuel metadata root lo results :
  ∀ i (h : heap) h',
    heap_closed h → root < lo → lo ≤ length h →
    region h lo (length h) → nonil_from h lo →
    (∀ result, result ∈ results → length (types.Result.Packages result) < fuel) →
    marshalResults o fuel metadata root i results h = Some (Done root, h') →
    region h' lo (length h') ∧ nonil_from h' lo.
Proof.
  induction results as [|result results IH];
    intros i h h' Hh Hroot Hlo Hreg Hnil Hfuel Hrun; simpl in Hrun.
  { by injection Hrun as <-. }
  destruct (marshalResult_spec (o i) fuel metadata result h Hh
              ltac:(apply Hfuel; by left))
    as (out & h1 & Hres & [hs ->] & Hh1 & Hreg1 & Hout & _).
  rewrite Hres in Hrun.
  assert (∀ b, Some b ∈ out → b < length (h ++ hs)) as Hout'.
  { intros b Hb. destruct (Hout _ Hb) as (a & [= <-] & ?). lia. }
  assert (length (h ++ hs) = length h + length hs) as Hlen by apply length_app.
  apply (IH (S i) (append_children root out (h ++ hs)) h'); [|done| | | | |done].
  - by apply append_children_closed.
  - rewrite append_children_length. lia.
  - rewrite append_children_length.
    eapply region_agree; [eapply (region_union _ lo (length h))|].
    + eapply region_agree; [exact Hreg|]. intros a Ha. apply lookup_app_l. lia.
    + exact Hreg1.
    + lia.
    + intros a Ha. unfold append_children. apply list_lookup_alter_ne. lia.
  - apply nonil_from_append.
    + eapply marshalResult_nonil; [exact Hh|done| |exact Hres]. apply Hfuel. by left.
    + intros Hin. by destruct (Hout _ Hin) as (? & ? & _).
  - intros. apply Hfuel. by right.
Qed.

(** X9: the graph that [MarshalReport] adds to the heap is closed and has no
    nil link: the root is the first new node, the nodes that existed before
    are unchanged, and every child of a new node is a node that was added
    after the root, never nil, never outside the heap, and never the root or
    an older node. *)
Theorem MarshalReport_links (o : nat → RangeOrder) (fuel : nat) (r : types.Report.t)
    (h : heap) (root : addr) (h' : heap) :
  heap_closed h →
  (∀ result, result ∈ types.Report.Results r →
     length (types.Result.Packages result) < fuel) →
  MarshalReport o fuel r h = Some (Done root, h') →
  root = length h ∧ root < length h'
  ∧ (∀ a, a < length h → h' !! a = h !! a)
  ∧ ∀ a c x, root ≤ a → h' !! a = Some c → x ∈ core.Component.Components c →
      ∃ b, x = Some b ∧ root < b < length h'.
Proof.
  intros Hh Hfuel Hrun. unfold MarshalReport in Hrun.
  pose proof (rootComponent_spec r h) as Hroot.
  destruct (rootError r) as [err|]; [by rewrite Hroot in Hrun|].
  destruct Hroot as (c0 & Hroot & Hleaf & _). rewrite Hroot in Hrun.
  assert (heap_closed (h ++ [c0])) as Hh0 by by apply heap_closed_alloc.
  assert (length h < length (h ++ [c0])) as Hlt by (rewrite length_app; simpl; lia).
  destruct (marshalResults_spec o fuel (types.Report.Metadata r) (length h)
              (types.Report.Results r) 0 _ Hh0 Hlt Hfuel)
    as (outs & h1 & Hrun1 & Hh1 & Hlen & Hold & Hrootnode & Houts & _).
  rewrite Hrun1 in Hrun. injection Hrun as <- <-.
  destruct (marshalResults_links o fuel (types.Report.Metadata r) (length h)
              (length (h ++ [c0])) (types.Report.Results r) 0 _ h1 Hh0)
    as [Hreg Hnil]; [lia|lia|apply region_empty| |done|done|].
  { intros a c Ha Hlook. apply lookup_lt_Some in Hlook. lia. }
  rewrite length_app in *. simpl in *.
  split_and!; [done|lia| |].
  - intros a Ha. rewrite Hold by lia. by apply lookup_app_l.
  - intros a c x Ha Hlook Hx.
    destruct (decide (a = length h)) as [->|Hne].
    + rewrite Hrootnode, lookup_app_r, Nat.sub_diag in Hlook by lia.
      simpl in Hlook. injection Hlook as <-. simpl in Hx. rewrite Hleaf in Hx.
      simpl in Hx. destruct (Houts _ Hx) as (b & -> & ?). exists b. split; [done|lia].
    + destruct x as [b|]; [|by eapply Hnil in Hx; [|..|exact Hlook]; [|lia]].
      exists b. split; [done|].
      apply (Hreg a c b) in Hx; [lia| |done].
      apply lookup_lt_Some in Hlook. lia.
Qed.
End Links.

(** ** The size of the forest *)


Section ForestSize.
Variable conv : Package.t → outcome (option core.Component.t).
Variable pkgs : gmap string Package.t.
Hypothesis conv_leaf :
  ∀ pkg c, conv pkg = Done (Some c) → core.Component.Components c = [].
Hypothesis conv_total : ∀ pkg, ∃ c, conv pkg = Done (Some c).


End ForestSize.

Section ResultSize.
Context `{Externals}.

End ResultSize.

(** * The lock file parsers

    The parsers of [pkg/dependency/parser] for Swift's [Package.resolved]
    and for Gradle lock files.  Strings are sequences of bytes, as in Go. *)

(** ** Go's [strings] functions that the parsers use *)

(** [strings.HasSuffix] and [strings.TrimSuffix] *)
Definition HasSuffix (s suffix : string) : bool :=
  (String.length suffix <=? String.length s)
  && String.eqb (String.substring (String.length s - String.length suffix)
                                  (String.length suffix) s)
                suffix.

Definition TrimSuffix (s suffix : string) : string :=
  if HasSuffix s suffix
  then String.substring 0 (String.length s - String.length suffix) s
  else s.

(** [strings.Split] for a separator of one byte: the pieces of [s] between
    the occurrences of [sep]; one piece more than there are occurrences. *)
Fixpoint Split (s : string) (sep : Ascii.ascii) : list string :=
  match s with
  | EmptyString => [EmptyString]
  | String c s' =>
      if Ascii.eqb c sep then EmptyString :: Split s' sep
      else match Split s' sep with
           | piece :: pieces => String c piece :: pieces
           | [] => [String c EmptyString]
           end
  end.

(** The table [asciiSpace] of [strings]: tab, line feed, vertical tab, form
    feed, carriage return and space. *)
Definition asciiSpace (c : Ascii.ascii) : bool :=
  let n := Ascii.nat_of_ascii c in
  (9 <=? n) && (n <=? 13) || (n =? 32).

(** A byte from [utf8.RuneSelf] on starts or continues a rune of several
    bytes. *)
Definition beyondASCII (c : Ascii.ascii) : bool := 128 <=? Ascii.nat_of_ascii c.

(** The string without its leading ASCII spaces. *)
Fixpoint dropSpaces (s : string) : string :=
  match s with
  | EmptyString => EmptyString
  | String c s' => if asciiSpace c then dropSpaces s' else s
  end.

(** The string without its trailing ASCII spaces. *)
Fixpoint dropTrailingSpaces (s : string) : string :=
  match s with
  | EmptyString => EmptyString
  | String c s' =>
      match dropTrailingSpaces s' with
      | EmptyString => if asciiSpace c then EmptyString else String c EmptyString
      | t => String c t
      end
  end.

Fixpoint lastByte (s : string) : option Ascii.ascii :=
  match s with
  | EmptyString => None
  | String c EmptyString => Some c
  | String _ s' => lastByte s'
  end.

Section TrimSpace.
(** [strings.TrimFunc] and [strings.TrimRightFunc] with [unicode.IsSpace]:
    the path of [TrimSpace] for a string that starts or ends, after its
    ASCII spaces, with a byte beyond ASCII. *)
Variable TrimFunc_IsSpace : string → string.
Variable TrimRightFunc_IsSpace : string → string.

(** [strings.TrimSpace] *)
Definition TrimSpace (s : string) : string :=
  let s := dropSpaces s in
  match s with
  | EmptyString => EmptyString
  | String c _ =>
      if beyondASCII c then TrimFunc_IsSpace s
      else
        let t := dropTrailingSpaces s in
        match lastByte t with
        | Some c' => if beyondASCII c' then TrimRightFunc_IsSpace t else t
        | None => t
        end
  end.
End TrimSpace.

(** ** Libraries

    [types.Library] and [types.Location] of [pkg/dependency/parser/types],
    with the fields that the two parsers set. *)
Module parser_types.
Module Location.
Record t := mk {
  StartLine : Z;
  EndLine : Z;
}.
End Location.

Module Library.
Record t := mk {
  ID : string;
  Name : string;
  Version : string;
  Locations : list Location.t;
}.
End Library.
End parser_types.

(** ** The parser of [Package.resolved] *)

Module swift.
(** The part of a pin that the parser reads. *)
Module State.
Record t := mk {
  Branch : string;
  Version : string;
}.
End State.

Module Pin.
Record t := mk {
  RepositoryURL : string;
  Location : string;
  State : State.t;
  StartLine : Z;
  EndLine : Z;
}.
End Pin.

Module LockFile.
Record t := mk {
  (** [lockFile.Object.Pins] *)
  ObjectPins : list Pin.t;
  Pins : list Pin.t;
  Version : Z;
}.
End LockFile.

Definition libraryName (pin : Pin.t) (lockVersion : Z) : string :=
  let name := Pin.RepositoryURL pin in
  let name := if (1 <? lockVersion)%Z then Pin.Location pin else name in
  let name := TrimPrefix name "https://" in
  let name := TrimSuffix name ".git" in
  name.

Section Parse.
(** [utils.PackageID] *)
Variable PackageID : string → string → string.
(** [sort.Sort] on [types.Libraries] *)
Variable sortLibraries : list parser_types.Library.t → list parser_types.Library.t.
(** [jfather.Unmarshal] into a [LockFile] *)
Variable Unmarshal : string → outcome LockFile.t.

(** The loop over the pins. *)
Fixpoint parsePins (lockVersion : Z) (pins : list Pin.t)
    (libs : list parser_types.Library.t) : list parser_types.Library.t :=
  match pins with
  | [] => libs
  | pin :: pins' =>
      let name := libraryName pin lockVersion in
      if String.eqb (State.Version (Pin.State pin)) ""
         && String.eqb (State.Branch (Pin.State pin)) ""
      then parsePins lockVersion pins' libs
      else
        let version :=
          if negb (String.eqb (State.Version (Pin.State pin)) "")
          then State.Version (Pin.State pin)
          else State.Branch (Pin.State pin) in
        parsePins lockVersion pins'
          (libs ++ [ {| parser_types.Library.ID := PackageID name version;
                        parser_types.Library.Name := name;
                        parser_types.Library.Version := version;
                        parser_types.Library.Locations :=
                          [ {| parser_types.Location.StartLine := Pin.StartLine pin;
                               parser_types.Location.EndLine := Pin.EndLine pin |} ] |} ])
  end.

(** [Parse]; [r] is what [io.ReadAll] returns for the reader.  The result
    is the list of libraries; the list of dependencies is always nil. *)
Definition Parse (r : outcome string) : outcome (list parser_types.Library.t) :=
  match r with
  | Failed err => Failed (Errorf "read error" err)
  | Done input =>
      match Unmarshal input with
      | Failed err => Failed (Errorf "decode error" err)
      | Done lockFile =>
          let pins := LockFile.ObjectPins lockFile in
          let pins :=
            if (1 <? LockFile.Version lockFile)%Z then LockFile.Pins lockFile
            else pins in
          Done (sortLibraries (parsePins (LockFile.Version lockFile) pins []))
      end
  end.
End Parse.
End swift.

(** ** The parser of Gradle lock files *)

Module lockfile.
Section Parse.
Variable TrimFunc_IsSpace : string → string.
Variable TrimRightFunc_IsSpace : string → string.
(** [utils.UniqueLibraries] *)
Variable UniqueLibraries : list parser_types.Library.t → list parser_types.Library.t.

(** The loop over the lines that the scanner yields; [lineNum] is the
    number of lines read so far. *)
Fixpoint scanLines (lines : list string) (lineNum : Z)
    (libs : list parser_types.Library.t) : list parser_types.Library.t :=
  match lines with
  | [] => libs
  | text :: lines' =>
      let lineNum := (lineNum + 1)%Z in
      let line := TrimSpace TrimFunc_IsSpace TrimRightFunc_IsSpace text in
      if HasPrefix line "#" then scanLines lines' lineNum libs
      else
        match Split line ":"%char with
        | [group; artifact; rest] =>
            let name := Join [group; artifact] ":" in
            let version := hd "" (Split rest "="%char) in
            scanLines lines' lineNum
              (libs ++ [ {| parser_types.Library.ID := name +:+ ":" +:+ version;
                            parser_types.Library.Name := name;
                            parser_types.Library.Version := version;
                            parser_types.Library.Locations :=
                              [ {| parser_types.Location.StartLine := lineNum;
                                   parser_types.Location.EndLine := lineNum |} ] |} ])
        | _ => scanLines lines' lineNum libs
        end
  end.

(** [Parse], from the lines of the file.  It reports no error and no
    dependencies. *)
Definition Parse (lines : list string) : list parser_types.Library.t :=
  UniqueLibraries (scanLines lines 0 []).
End Parse.
End lockfile.

(** ** Suffixes and pieces *)

Lemma substring_prefix (s t : string) :
  String.substring 0 (String.length s) (s +:+ t) = s.
Proof. induction s as [|a s IH]; simpl; [by destruct t|]. by rewrite IH. Qed.

Lemma HasSuffix_app (s suffix : string) : HasSuffix (s +:+ suffix) suffix = true.
Proof.
  unfold HasSuffix. rewrite length_app_string.
  replace (String.length s + String.length suffix - String.length suffix)
    with (String.length s) by lia.
  rewrite substring_skip, substring_all, String.eqb_refl, andb_true_r.
  apply Nat.leb_le. lia.
Qed.

Lemma TrimSuffix_app (s suffix : string) : TrimSuffix (s +:+ suffix) suffix = s.
Proof.
  unfold TrimSuffix. rewrite HasSuffix_app, length_app_string.
  replace (String.length s + String.length suffix - String.length suffix)
    with (String.length s) by lia.
  apply substring_prefix.
Qed.

Lemma TrimSuffix_none (s suffix : string) :
  HasSuffix s suffix = false → TrimSuffix s suffix = s.
Proof. unfold TrimSuffix. by intros ->. Qed.

(** A prefix of [s +:+ t] is a prefix of [s], or it ends in [t]. *)
Lemma HasPrefix_app_split (p : string) :
  ∀ s t, HasPrefix (s +:+ t) p = true →
    HasPrefix s p = true ∨ ∃ p2, p = s +:+ p2 ∧ HasPrefix t p2 = true.
Proof.
  induction p as [|a p IH]; intros s t Hp.
  { left. by destruct s. }
  destruct s as [|b s]; [right; by exists (String a p)|].
  simpl in *. destruct (Ascii.eqb_spec a b) as [->|]; [|done].
  destruct (IH _ _ Hp) as [?|(p2 & -> & ?)]; [by left|right; by exists p2].
Qed.

Lemma https_not_git (s : string) :
  HasPrefix s "https://" = false → HasPrefix (s +:+ ".git") "https://" = false.
Proof.
  intros Hs. apply not_true_is_false. intros Hp.
  apply HasPrefix_app_split in Hp as [Hp|(p2 & Heq & Hp2)]; [congruence|].
  do 9 (destruct s as [|? s];
          [change ("" +:+ p2) with p2 in Heq; subst p2; by vm_compute in Hp2|];
        change (String ?a s +:+ p2) with (String a (s +:+ p2)) in Heq;
        try discriminate Heq; injection Heq as <- Heq).
Qed.

(** ** Properties of the parser of [Package.resolved] *)

Module swift_facts.
Import swift.

(** The address that [libraryName] reads: [Location] from version 2 of
    the lock file on, [RepositoryURL] before. *)
Definition address (pin : Pin.t) (lockVersion : Z) : string :=
  if (1 <? lockVersion)%Z then Pin.Location pin else Pin.RepositoryURL pin.

(** X11: the name of a library is the address of its repository without
    the scheme [https://] and without the suffix [.git], and both are
    optional: for a string [s] that neither starts with the scheme nor ends
    in the suffix, the addresses [s], [s.git], [https://s] and
    [https://s.git] all give the name [s]. *)
Theorem libraryName_strips (pin : Pin.t) (lockVersion : Z) (s : string) :
  HasPrefix s "https://" = false →
  HasSuffix s ".git" = false →
  address pin lockVersion
    ∈ [s; s +:+ ".git"; "https://" +:+ s; "https://" +:+ s +:+ ".git"] →
  libraryName pin lockVersion = s.
Proof.
  intros Hpre Hsuf Haddr. unfold libraryName. fold (address pin lockVersion).
  cbv zeta. rewrite !elem_of_cons, elem_of_nil in Haddr.
  destruct Haddr as [->|[->|[->|[->|[]]]]].
  - by rewrite TrimPrefix_none, TrimSuffix_none.
  - rewrite TrimPrefix_none by by apply https_not_git. apply TrimSuffix_app.
  - by rewrite TrimPrefix_app, TrimSuffix_none.
  - rewrite TrimPrefix_app. apply TrimSuffix_app.
Qed.

Section ParseFacts.
Variable PackageID : string → string → string.
Variable sortLibraries : list parser_types.Library.t → list parser_types.Library.t.
Variable Unmarshal : string → outcome LockFile.t.
(** Sorting rearranges the libraries and does nothing else. *)
Hypothesis sortLibraries_perm : ∀ libs, sortLibraries libs ≡ₚ libs.

(** The pins that [Parse] reads: the pins of the file from version 2 on,
    the pins of its object before. *)
Definition pinsOf (lockFile : LockFile.t) : list Pin.t :=
  if (1 <? LockFile.Version lockFile)%Z then LockFile.Pins lockFile
  else LockFile.ObjectPins lockFile.

(** A pin with a version or a branch. *)
Definition resolvable (pin : Pin.t) : Prop :=
  State.Version (Pin.State pin) ≠ "" ∨ State.Branch (Pin.State pin) ≠ "".

(** The version of a pin: its version, or its branch when it has no
    version. *)
Definition versionOf (pin : Pin.t) : string :=
  if decide (State.Version (Pin.State pin) = "")
  then State.Branch (Pin.State pin)
  else State.Version (Pin.State pin).

Definition libraryOf (lockVersion : Z) (pin : Pin.t) : parser_types.Library.t :=
  {| parser_types.Library.ID := PackageID (libraryName pin lockVersion) (versionOf pin);
     parser_types.Library.Name := libraryName pin lockVersion;
     parser_types.Library.Version := versionOf pin;
     parser_types.Library.Locations :=
       [ {| parser_types.Location.StartLine := Pin.StartLine pin;
            parser_types.Location.EndLine := Pin.EndLine pin |} ] |}.

Lemma parsePins_spec lockVersion pins :
  ∀ libs, parsePins PackageID lockVersion pins libs
          = libs ++ (libraryOf lockVersion <$> filter resolvable pins).
Proof.
  induction pins as [|pin pins IH]; intros libs; simpl; [by rewrite app_nil_r|].
  rewrite filter_cons, !IH.
  destruct (decide (resolvable pin)) as [Hres|Hres]; unfold resolvable in Hres.
  - assert ((State.Version (Pin.State pin) =? "")%string
            && (State.Branch (Pin.State pin) =? "")%string = false) as ->.
    { apply andb_false_iff. rewrite !String.eqb_neq. tauto. }
    rewrite <- app_assoc. simpl. do 3 f_equal.
    unfold libraryOf, versionOf.
    destruct (String.eqb_spec (State.Version (Pin.State pin)) "") as [Hv|Hv]; simpl.
    + by rewrite decide_True.
    + by rewrite decide_False.
  - assert ((State.Version (Pin.State pin) =? "")%string
            && (State.Branch (Pin.State pin) =? "")%string = true) as ->; [|done].
    apply andb_true_iff. rewrite !String.eqb_eq.
    split; apply dec_stable; tauto.
Qed.

(** X12: when [Parse] succeeds, it returns one library for each pin with a
    version or a branch, and none for the other pins: up to the order, which
    the sort decides, the libraries are those of the pins of the file that
    have a version or a branch.  The version of a library is the version of
    its pin and, without one, the branch; it is never empty.  Its ID is
    made of its name and version, and its one location is that of the
    pin. *)
Theorem Parse_libraries (input : string) (lockFile : LockFile.t)
    (libs : list parser_types.Library.t) :
  Unmarshal input = Done lockFile →
  Parse PackageID sortLibraries Unmarshal (Done input) = Done libs →
  libs ≡ₚ libraryOf (LockFile.Version lockFile) <$> filter resolvable (pinsOf lockFile)
  ∧ length libs = length (filter resolvable (pinsOf lockFile))
  ∧ ∀ lib, lib ∈ libs →
      parser_types.Library.Version lib ≠ ""
      ∧ parser_types.Library.ID lib
        = PackageID (parser_types.Library.Name lib) (parser_types.Library.Version lib)
      ∧ ∃ pin, pin ∈ pinsOf lockFile
               ∧ parser_types.Library.Name lib
                 = libraryName pin (LockFile.Version lockFile)
               ∧ (parser_types.Library.Version lib = State.Version (Pin.State pin)
                  ∨ State.Version (Pin.State pin) = ""
                    ∧ parser_types.Library.Version lib = State.Branch (Pin.State pin))
               ∧ parser_types.Library.Locations lib
                 = [ {| parser_types.Location.StartLine := Pin.StartLine pin;
                        parser_types.Location.EndLine := Pin.EndLine pin |} ].
Proof.
  intros Hdecode. unfold Parse. rewrite Hdecode. intros [= <-].
  fold (pinsOf lockFile). rewrite parsePins_spec. simpl.
  assert (sortLibraries (libraryOf (LockFile.Version lockFile)
                           <$> filter resolvable (pinsOf lockFile))
          ≡ₚ libraryOf (LockFile.Version lockFile)
             <$> filter resolvable (pinsOf lockFile)) as Hperm
    by apply sortLibraries_perm.
  split_and!; [done|by rewrite Hperm, length_fmap|].
  intros lib. rewrite Hperm, list_elem_of_fmap.
  intros (pin & -> & [Hpin Hres]%list_elem_of_filter). simpl.
  unfold versionOf, resolvable in *.
  destruct (decide (State.Version (Pin.State pin) = "")) as [Hv|Hv].
  - split_and!; [naive_solver|done|]. exists pin. split_and!; [done..|by right|done].
  - split_and!; [done..|]. exists pin. split_and!; [done..|by left|done].
Qed.
End ParseFacts.
End swift_facts.

(** ** Bytes of a string *)

(** [strings.Count] for one byte: how often [c] occurs in [s]. *)
Fixpoint count (c : Ascii.ascii) (s : string) : nat :=
  match s with
  | EmptyString => 0
  | String b s' => (if Ascii.eqb b c then 1 else 0) + count c s'
  end.

(** All bytes of the string are ASCII spaces. *)
Fixpoint spaces (s : string) : bool :=
  match s with
  | EmptyString => true
  | String c s' => asciiSpace c && spaces s'
  end.

(** All bytes of the string are ASCII. *)
Fixpoint isASCII (s : string) : bool :=
  match s with
  | EmptyString => true
  | String c s' => negb (beyondASCII c) && isASCII s'
  end.

(** An ASCII byte that is no space. *)
Definition plain (c : Ascii.ascii) : bool :=
  negb (asciiSpace c) && negb (beyondASCII c).

Lemma app_string_nil_l (s : string) : "" +:+ s = s.
Proof. done. Qed.

Lemma app_string_cons (a : Ascii.ascii) (s t : string) :
  String a s +:+ t = String a (s +:+ t).
Proof. done. Qed.

Lemma app_string_nil_r (s : string) : s +:+ "" = s.
Proof. induction s as [|a s IH]; [done|]. by rewrite app_string_cons, IH. Qed.

Lemma count_app c (s t : string) : count c (s +:+ t) = count c s + count c t.
Proof.
  induction s as [|a s IH]; [done|]. rewrite app_string_cons. simpl. rewrite IH. lia.
Qed.

Lemma dropSpaces_app (ws s : string) :
  spaces ws = true → dropSpaces (ws +:+ s) = dropSpaces s.
Proof.
  induction ws as [|a ws IH]; [done|]. rewrite app_string_cons. simpl.
  intros [-> Hws]%andb_true_iff. by apply IH.
Qed.

Lemma dropTrailingSpaces_spaces (ws : string) :
  spaces ws = true → dropTrailingSpaces ws = "".
Proof.
  induction ws as [|a ws IH]; [done|]. simpl.
  intros [-> Hws]%andb_true_iff. by rewrite IH.
Qed.

Lemma dropTrailingSpaces_app (s ws : string) c :
  lastByte s = Some c → asciiSpace c = false → spaces ws = true →
  dropTrailingSpaces (s +:+ ws) = s.
Proof.
  intros Hlast Hc Hws. induction s as [|a s IH]; [done|].
  rewrite app_string_cons. simpl. destruct s as [|b s].
  - injection Hlast as ->. rewrite app_string_nil_l, dropTrailingSpaces_spaces by done.
    by rewrite Hc.
  - rewrite IH by done. done.
Qed.

Lemma lastByte_dropTrailingSpaces (s : string) c :
  lastByte (dropTrailingSpaces s) = Some c → asciiSpace c = false.
Proof.
  revert c. induction s as [|a s IH]; intros c; [done|]. simpl.
  destruct (dropTrailingSpaces s) as [|b t] eqn:Ht.
  - destruct (asciiSpace a) eqn:Ha; [done|]. by intros [= <-].
  - intros Hc. by apply IH.
Qed.

Lemma isASCII_dropSpaces (s : string) : isASCII s = true → isASCII (dropSpaces s) = true.
Proof.
  induction s as [|a s IH]; [done|]. simpl. intros Hs.
  destruct (asciiSpace a); [|done]. apply IH. by apply andb_true_iff in Hs as [_ ?].
Qed.

Lemma isASCII_dropTrailingSpaces (s : string) :
  isASCII s = true → isASCII (dropTrailingSpaces s) = true.
Proof.
  induction s as [|a s IH]; [done|]. simpl. intros [Ha Hs]%andb_true_iff.
  specialize (IH Hs). destruct (dropTrailingSpaces s) as [|b t].
  - destruct (asciiSpace a); [done|]. simpl. by rewrite Ha.
  - simpl in *. by rewrite Ha, IH.
Qed.

Lemma isASCII_lastByte (s : string) c :
  isASCII s = true → lastByte s = Some c → beyondASCII c = false.
Proof.
  induction s as [|a s IH]; [done|]. simpl. intros [Ha Hs]%andb_true_iff.
  destruct s as [|b s]; [|by apply IH].
  intros [= <-]. by apply negb_true_iff.
Qed.

Section TrimSpaceFacts.
Variable TrimFunc_IsSpace : string → string.
Variable TrimRightFunc_IsSpace : string → string.

(** [TrimSpace] removes the ASCII spaces around a string that starts and
    ends with ASCII bytes that are no spaces. *)
Lemma TrimSpace_around (ws1 ws2 core : string) c0 rest c1 :
  spaces ws1 = true → spaces ws2 = true →
  core = String c0 rest → plain c0 = true →
  lastByte core = Some c1 → plain c1 = true →
  TrimSpace TrimFunc_IsSpace TrimRightFunc_IsSpace (ws1 +:+ core +:+ ws2) = core.
Proof.
  intros Hws1 Hws2 Hcore [Hs0 Hb0]%andb_true_iff Hlast [Hs1 Hb1]%andb_true_iff.
  apply negb_true_iff in Hs0, Hb0, Hs1, Hb1.
  unfold TrimSpace. rewrite dropSpaces_app by done.
  assert (dropSpaces (core +:+ ws2) = core +:+ ws2) as ->.
  { rewrite Hcore, app_string_cons. simpl. by rewrite Hs0. }
  rewrite (dropTrailingSpaces_app core ws2 c1) by done.
  rewrite Hcore at 1. rewrite app_string_cons, Hb0, Hlast, Hb1. done.
Qed.

(** On an ASCII string, [TrimSpace] removes the ASCII spaces at both ends. *)
Lemma TrimSpace_ascii (s : string) :
  isASCII s = true →
  TrimSpace TrimFunc_IsSpace TrimRightFunc_IsSpace s
  = dropTrailingSpaces (dropSpaces s).
Proof.
  intros Hs. unfold TrimSpace.
  pose proof (isASCII_dropSpaces s Hs) as Hd.
  destruct (dropSpaces s) as [|c t] eqn:Hdrop; [done|].
  pose proof Hd as [Hc _]%andb_true_iff. apply negb_true_iff in Hc. rewrite Hc.
  destruct (lastByte _) as [c'|] eqn:Hlast; [|done].
  apply isASCII_lastByte in Hlast; [by rewrite Hlast|].
  by apply isASCII_dropTrailingSpaces.
Qed.
End TrimSpaceFacts.

(** ** Pieces of a string *)

Lemma Split_nonempty (s : string) c : Split s c ≠ [].
Proof. destruct s as [|a s]; simpl; [done|]. by destruct (Ascii.eqb a c), (Split s c). Qed.

Lemma Split_length (s : string) c : length (Split s c) = S (count c s).
Proof.
  induction s as [|a s IH]; simpl; [done|].
  destruct (Ascii.eqb a c); simpl; [by rewrite IH|].
  pose proof (Split_nonempty s c). by destruct (Split s c).
Qed.

(** No piece contains the separator. *)
Lemma Split_pieces (s : string) c : Forall (fun piece => count c piece = 0) (Split s c).
Proof.
  induction s as [|a s IH]; simpl; [by constructor|].
  destruct (Ascii.eqb a c) eqn:Ha; [by constructor|].
  pose proof (Split_nonempty s c).
  destruct (Split s c) as [|piece pieces]; [done|].
  apply Forall_cons in IH as [Hp Hps]. constructor; [|done]. simpl. by rewrite Ha.
Qed.

(** The first piece is the string up to the first separator. *)
Lemma Split_hd (s : string) c :
  ∃ t, s = hd "" (Split s c) +:+ t.
Proof.
  induction s as [|a s [t IH]]; simpl; [by exists ""|].
  destruct (Ascii.eqb a c); simpl; [by eexists|].
  pose proof (Split_nonempty s c).
  destruct (Split s c) as [|piece pieces]; [done|]. simpl in *.
  exists t. by rewrite app_string_cons, <- IH.
Qed.

Lemma Split_none (s : string) c : count c s = 0 → Split s c = [s].
Proof.
  induction s as [|a s IH]; simpl; [done|].
  destruct (Ascii.eqb a c); [done|]. simpl. by intros ->%IH.
Qed.

Lemma Split_app (s t : string) c :
  count c s = 0 → Split (s +:+ String c t) c = s :: Split t c.
Proof.
  induction s as [|a s IH].
  - intros _. rewrite app_string_nil_l. simpl. by rewrite Ascii.eqb_refl.
  - rewrite app_string_cons. simpl. destruct (Ascii.eqb a c); [done|]. simpl.
    by intros ->%IH.
Qed.

(** [strings.Join] puts together what [strings.Split] has taken apart. *)
Lemma Join_Split (s : string) c : Join (Split s c) (String c "") = s.
Proof.
  induction s as [|a s IH]; [done|].
  pose proof (Split_nonempty s c). cbn [Split].
  destruct (Ascii.eqb_spec a c) as [->|Hne];
    destruct (Split s c) as [|piece pieces]; try done.
  - cbn [Join] in *. by rewrite IH.
  - destruct pieces; cbn [Join] in *; by rewrite <- IH.
Qed.

(** ** Properties of the parser of Gradle lock files *)

Module lockfile_facts.
Import lockfile.

(** The library of the dependency [group:artifact:version], found in the
    line of number [lineNum]. *)
Definition libraryAt (group artifact version : string) (lineNum : Z)
    : parser_types.Library.t :=
  {| parser_types.Library.ID := (group +:+ ":" +:+ artifact) +:+ ":" +:+ version;
     parser_types.Library.Name := group +:+ ":" +:+ artifact;
     parser_types.Library.Version := version;
     parser_types.Library.Locations :=
       [ {| parser_types.Location.StartLine := lineNum;
            parser_types.Location.EndLine := lineNum |} ] |}.

(** The line in which a library was found. *)
Definition lineOf (lib : parser_types.Library.t) : Z :=
  match parser_types.Library.Locations lib with
  | [loc] => parser_types.Location.StartLine loc
  | _ => 0
  end.

(** A library with its lines moved down by [k] lines. *)
Definition moved (k : Z) (lib : parser_types.Library.t) : parser_types.Library.t :=
  {| parser_types.Library.ID := parser_types.Library.ID lib;
     parser_types.Library.Name := parser_types.Library.Name lib;
     parser_types.Library.Version := parser_types.Library.Version lib;
     parser_types.Library.Locations :=
       (fun loc =>
          {| parser_types.Location.StartLine :=
               (parser_types.Location.StartLine loc + k)%Z;
             parser_types.Location.EndLine :=
               (parser_types.Location.EndLine loc + k)%Z |})
       <$> parser_types.Library.Locations lib |}.

Section ParseFacts.
Variable TrimFunc_IsSpace : string → string.
Variable TrimRightFunc_IsSpace : string → string.

Abbreviation scanLines := (scanLines TrimFunc_IsSpace TrimRightFunc_IsSpace).
Abbreviation TrimSpace := (TrimSpace TrimFunc_IsSpace TrimRightFunc_IsSpace).

(** What one line adds to the libraries. *)
Definition lineLibraries (text : string) (lineNum : Z) : list parser_types.Library.t :=
  scanLines [text] (lineNum - 1) [].

Lemma scanLines_cons text lines n libs :
  scanLines (text :: lines) n libs
  = scanLines lines (n + 1) (libs ++ lineLibraries text (n + 1)).
Proof.
  unfold lineLibraries. replace (n + 1 - 1)%Z with n by lia. simpl.
  destruct (HasPrefix _ _); [by rewrite app_nil_r|].
  destruct (Split _ _) as [|g [|a [|v [|]]]]; by rewrite ?app_nil_r.
Qed.

Lemma scanLines_acc lines :
  ∀ n libs, scanLines lines n libs = libs ++ scanLines lines n [].
Proof.
  induction lines as [|text lines IH]; intros n libs; [by rewrite app_nil_r|].
  rewrite !scanLines_cons, (IH _ (libs ++ _)), (IH _ ([] ++ _)).
  by rewrite <- app_assoc.
Qed.

Lemma scanLines_moved lines :
  ∀ n k, scanLines lines (n + k) [] = moved k <$> scanLines lines n [].
Proof.
  induction lines as [|text lines IH]; intros n k; [done|].
  rewrite !scanLines_cons, !(scanLines_acc lines _ ([] ++ _)), fmap_app.
  replace (n + k + 1)%Z with (n + 1 + k)%Z by lia. rewrite IH. f_equal.
  unfold lineLibraries. simpl.
  replace (n + 1 + k - 1 + 1)%Z with (n + 1 + k)%Z by lia.
  replace (n + 1 - 1 + 1)%Z with (n + 1)%Z by lia.
  destruct (HasPrefix _ _); [done|].
  destruct (Split _ _) as [|g [|a [|v [|]]]]; done.
Qed.

(** X13: the libraries of a file are the libraries of its first lines
    followed by those of its remaining lines, found as many lines further
    down as the first part has lines: no line changes what the loop makes
    of another line. *)
Theorem scanLines_app (lines1 lines2 : list string) :
  scanLines (lines1 ++ lines2) 0 []
  = scanLines lines1 0 []
    ++ (moved (Z.of_nat (length lines1)) <$> scanLines lines2 0 []).
Proof.
  assert (∀ n, scanLines (lines1 ++ lines2) n []
               = scanLines lines1 n []
                 ++ scanLines lines2 (n + Z.of_nat (length lines1)) [])
    as Hgen.
  { induction lines1 as [|text lines1 IH]; intros n.
    - simpl. by rewrite Z.add_0_r.
    - cbn [app]. rewrite !scanLines_cons.
      replace (n + Z.of_nat (length (text :: lines1)))%Z
        with (n + 1 + Z.of_nat (length lines1))%Z by (simpl length; lia).
      rewrite (scanLines_acc (lines1 ++ lines2)), (scanLines_acc lines1), IH.
      by rewrite <- !app_assoc. }
  rewrite Hgen. f_equal. apply (scanLines_moved lines2 0).
Qed.

(** What [lineLibraries] computes. *)
Lemma lineLibraries_eq text k :
  lineLibraries text k
  = if HasPrefix (TrimSpace text) "#" then []
    else match Split (TrimSpace text) ":" with
         | [group; artifact; rest] =>
             [libraryAt group artifact (hd "" (Split rest "=")) k]
         | _ => []
         end.
Proof.
  unfold lineLibraries, libraryAt. simpl.
  replace (k - 1 + 1)%Z with k by lia.
  destruct (HasPrefix _ _); [done|].
  destruct (Split _ _) as [|g [|a [|v [|]]]]; done.
Qed.

Lemma lineLibraries_shape text k :
  lineLibraries text k = []
  ∨ ∃ group artifact version,
      lineLibraries text k = [libraryAt group artifact version k]
      ∧ count ":" group = 0 ∧ count ":" artifact = 0
      ∧ count ":" version = 0 ∧ count "=" version = 0.
Proof.
  rewrite lineLibraries_eq. destruct (HasPrefix _ _); [by left|].
  pose proof (Split_pieces (TrimSpace text) ":") as Hpieces.
  destruct (Split _ _) as [|g [|a [|r [|]]]]; try by left.
  right. exists g, a, (hd "" (Split r "=")).
  apply Forall_cons in Hpieces as [Hg Hpieces].
  apply Forall_cons in Hpieces as [Ha Hpieces].
  apply Forall_cons in Hpieces as [Hr _].
  split_and!; [done..| |].
  - destruct (Split_hd r "=") as [t Ht]. rewrite Ht, count_app in Hr. lia.
  - pose proof (Split_pieces r "=") as Hv. pose proof (Split_nonempty r "=").
    destruct (Split r "="); [done|]. by apply Forall_cons in Hv as [? _].
Qed.

Lemma scanLines_step text lines n :
  scanLines (text :: lines) n []
  = lineLibraries text (n + 1) ++ scanLines lines (n + 1) [].
Proof. by rewrite scanLines_cons, scanLines_acc. Qed.

(** X14: every library that the loop over the lines finds comes from one
    line of the file: it is located at the number of that line, counted
    from 1 over all lines, skipped ones included.  Its ID is its name and
    its version joined by a colon, its name is a group and an artifact
    joined by a colon, neither with a colon in it, and its version has no
    colon and no equals sign.  The libraries come in the order of their
    lines, at most one for a line. *)
Theorem scanLines_libraries (lines : list string) :
  length (scanLines lines 0 []) ≤ length lines
  ∧ (∀ lib, lib ∈ scanLines lines 0 [] →
       ∃ group artifact version (i : nat) text,
         lib = libraryAt group artifact version (Z.of_nat i + 1)
         ∧ lines !! i = Some text
         ∧ lineLibraries text (Z.of_nat i + 1) = [lib]
         ∧ count ":" group = 0 ∧ count ":" artifact = 0
         ∧ count ":" version = 0 ∧ count "=" version = 0)
  ∧ StronglySorted (fun l1 l2 => (lineOf l1 < lineOf l2)%Z) (scanLines lines 0 []).
Proof.
  assert (∀ n,
            length (scanLines lines n []) ≤ length lines
            ∧ (∀ lib, lib ∈ scanLines lines n [] →
                 ∃ group artifact version (i : nat) text,
                   lib = libraryAt group artifact version (n + Z.of_nat i + 1)
                   ∧ lines !! i = Some text
                   ∧ lineLibraries text (n + Z.of_nat i + 1) = [lib]
                   ∧ count ":" group = 0 ∧ count ":" artifact = 0
                   ∧ count ":" version = 0 ∧ count "=" version = 0)
            ∧ StronglySorted (fun l1 l2 => (lineOf l1 < lineOf l2)%Z)
                (scanLines lines n [])) as Hgen; [|exact (Hgen 0%Z)].
  induction lines as [|text lines IH]; intros n.
  { simpl. split_and!; [done| |constructor]. intros lib Hin. by apply elem_of_nil in Hin. }
  rewrite scanLines_step. destruct (IH (n + 1)%Z) as (Hlen & Hall & Hsorted).
  assert (∀ lib, lib ∈ scanLines lines (n + 1) [] →
            ∃ group artifact version (i : nat) t,
              lib = libraryAt group artifact version (n + Z.of_nat (S i) + 1)
              ∧ (text :: lines) !! S i = Some t
              ∧ lineLibraries t (n + Z.of_nat (S i) + 1) = [lib]
              ∧ count ":" group = 0 ∧ count ":" artifact = 0
              ∧ count ":" version = 0 ∧ count "=" version = 0) as Hall'.
  { intros lib Hin.
    destruct (Hall lib Hin) as (g & a & v & i & t & Hlib & Hi & Hone & Hc).
    exists g, a, v, i, t.
    replace (n + Z.of_nat (S i) + 1)%Z with (n + 1 + Z.of_nat i + 1)%Z by lia.
    done. }
  destruct (lineLibraries_shape text (n + 1))
    as [Hnone|(g & a & v & Hone & Hc)].
  { rewrite Hnone. simpl. split_and!; [lia| |done].
    intros lib Hin. destruct (Hall' lib Hin) as (g & a & v & i & t & ?).
    by exists g, a, v, (S i), t. }
  rewrite Hone. simpl. split_and!; [lia| |].
  - intros lib [->|Hin]%elem_of_cons.
    + exists g, a, v, 0%nat, text.
      replace (n + Z.of_nat 0 + 1)%Z with (n + 1)%Z by lia. done.
    + destruct (Hall' lib Hin) as (g' & a' & v' & i & t & ?).
      by exists g', a', v', (S i), t.
  - constructor; [done|]. apply Forall_forall. intros lib Hin.
    destruct (Hall lib Hin) as (g' & a' & v' & i & t & -> & _).
    unfold lineOf. simpl. lia.
Qed.

Lemma HasPrefix_byte (a b : Ascii.ascii) (s : string) :
  HasPrefix (String b s) (String a "") = Ascii.eqb a b.
Proof. cbn [HasPrefix]. by destruct (Ascii.eqb a b), s. Qed.

(** X15: a line that spells a dependency as [group:artifact:version], on
    its own or followed by an equals sign and the configurations, with
    ASCII spaces around it or none, gives the library of that group,
    artifact and version, located at the line.  The group starts with an
    ASCII byte that is no space and no [#]; group, artifact, version and
    configurations have no colon, the version has no equals sign, and the
    dependency ends in an ASCII byte that is no space. *)
Theorem lineLibraries_dependency (ws1 ws2 group artifact version rest : string)
    (c0 c1 : Ascii.ascii) (group' : string) (k : Z) :
  let dependency := group +:+ ":" +:+ artifact +:+ ":" +:+ version +:+ rest in
  spaces ws1 = true → spaces ws2 = true →
  group = String c0 group' → plain c0 = true → c0 ≠ "#"%char →
  lastByte dependency = Some c1 → plain c1 = true →
  count ":" group = 0 → count ":" artifact = 0 →
  count ":" version = 0 → count "=" version = 0 → count ":" rest = 0 →
  rest = "" ∨ (∃ configurations, rest = String "=" configurations) →
  lineLibraries (ws1 +:+ dependency +:+ ws2) k = [libraryAt group artifact version k].
Proof.
  intros dependency Hws1 Hws2 Hgroup Hc0 Hhash Hlast Hc1 Hg Ha Hv Hve Hr Hrest.
  rewrite lineLibraries_eq.
  rewrite (TrimSpace_around _ _ ws1 ws2 dependency c0
             (group' +:+ ":" +:+ artifact +:+ ":" +:+ version +:+ rest) c1);
    [|done|done|by unfold dependency; rewrite Hgroup|done..].
  assert (HasPrefix dependency "#" = false) as ->.
  { unfold dependency. rewrite Hgroup, app_string_cons, HasPrefix_byte.
    apply Ascii.eqb_neq. congruence. }
  unfold dependency.
  change (group +:+ ":" +:+ artifact +:+ ":" +:+ version +:+ rest)
    with (group +:+ String ":" (artifact +:+ String ":" (version +:+ rest))).
  rewrite (Split_app group), (Split_app artifact), Split_none;
    [|by rewrite count_app, Hv, Hr|done..].
  f_equal. f_equal.
  destruct Hrest as [->|[configurations ->]].
  - by rewrite app_string_nil_r, Split_none.
  - by rewrite Split_app.
Qed.

Lemma count_dropSpaces (s : string) c :
  asciiSpace c = false → count c (dropSpaces s) = count c s.
Proof.
  intros Hc. induction s as [|a s IH]; [done|]. simpl.
  destruct (asciiSpace a) eqn:Ha; [|done].
  rewrite IH. destruct (Ascii.eqb_spec a c); [congruence|done].
Qed.

Lemma count_dropTrailingSpaces (s : string) c :
  asciiSpace c = false → count c (dropTrailingSpaces s) = count c s.
Proof.
  intros Hc. induction s as [|a s IH]; [done|]. simpl.
  destruct (dropTrailingSpaces s) as [|b t]; simpl in *.
  - rewrite <- IH. destruct (asciiSpace a) eqn:Ha; simpl; [|lia].
    destruct (Ascii.eqb_spec a c); [congruence|done].
  - by rewrite IH.
Qed.

Lemma HasPrefix_dropTrailingSpaces (s : string) c :
  asciiSpace c = false →
  HasPrefix (dropTrailingSpaces s) (String c "") = HasPrefix s (String c "").
Proof.
  intros Hc. destruct s as [|a s]; [done|]. cbn [dropTrailingSpaces].
  destruct (dropTrailingSpaces s) as [|b t]; [|by rewrite !HasPrefix_byte].
  destruct (asciiSpace a) eqn:Ha; [|by rewrite !HasPrefix_byte].
  rewrite HasPrefix_byte. symmetry. apply Ascii.eqb_neq. congruence.
Qed.

(** X16: an ASCII line adds no library exactly when its first byte after
    the leading ASCII spaces is [#], or when it does not have exactly two
    colons; any other ASCII line adds one library. *)
Theorem lineLibraries_skipped (text : string) (k : Z) :
  isASCII text = true →
  (lineLibraries text k = []
   ↔ HasPrefix (dropSpaces text) "#" = true ∨ count ":" text ≠ 2)
  ∧ length (lineLibraries text k) ≤ 1.
Proof.
  intros Htext. rewrite lineLibraries_eq, TrimSpace_ascii by done.
  rewrite HasPrefix_dropTrailingSpaces by done.
  pose proof (Split_length (dropTrailingSpaces (dropSpaces text)) ":") as Hlen.
  rewrite count_dropTrailingSpaces, count_dropSpaces in Hlen by done.
  destruct (HasPrefix (dropSpaces text) "#"); [split; [tauto|simpl; lia]|].
  destruct (Split _ _) as [|g [|a [|r [|]]]]; simpl in *; split; try lia;
    split; try done; intros; try (right; lia); naive_solver lia.
Qed.
End ParseFacts.
End lockfile_facts.

(** * The further properties at sample inputs *)

(** Two packages with the same ID. *)
Definition duplicate_result : types.Result.t :=
  types.Result.mk "package-lock.json" "lang-pkgs" "npm"
    [ sample_package "A" [] false; sample_package "A" ["B"] false ] [].

(** A package with a vulnerability recorded for its ID, one recorded
    without package ID and one of a package that is not in the result. *)
Definition vulnerable_result : types.Result.t :=
  types.Result.mk "package-lock.json" "lang-pkgs" "npm"
    [ sample_package "A" [] false ]
    [ types.DetectedVulnerability.mk "CVE-2024-0001" "A" "A" "1.0.0";
      types.DetectedVulnerability.mk "CVE-2024-0002" "" "A" "1.0.0";
      types.DetectedVulnerability.mk "CVE-2024-0003" "C" "C" "2.0.0" ].

(** Two indirect packages that depend on each other. *)
Definition indirect_cycle_result : types.Result.t :=
  types.Result.mk "package-lock.json" "lang-pkgs" "npm"
    [ sample_package "A" ["B"] true; sample_package "B" ["A"] true ] [].

(** The metadata component of a CycloneDX document with a property in the
    Trivy namespace and one outside it. *)
Definition sample_component : ftypes.Component.t :=
  ftypes.Component.mk "application" "app" "org" ""
    [ ftypes.Property.mk "aquasecurity:trivy:SchemaVersion" "2";
      ftypes.Property.mk "vendor:note" "" ].

Section MoreSamples.
#[local] Existing Instance sample_externals.

(** X3 at a result with two packages of the same ID. *)
Lemma packageMap_last_wins_witness :
  let metadata := sample_metadata in
  let result := duplicate_result in
  let l1 := [sample_package "A" [] false] in
  let pkg := sample_package "A" ["B"] false in
  let l2 : list ftypes.Package.t := [] in
  types.Result.Packages result = l1 ++ pkg :: l2
  ∧ (∀ q, q ∈ l2 → pkgID q ≠ pkgID pkg)
  ∧ packageMap metadata result !! pkgID pkg = Some (wrapPackage metadata result pkg)
  ∧ ∀ k X, packageMap metadata result !! k = Some X →
      ∃ q, q ∈ types.Result.Packages result ∧ k = pkgID q
           ∧ X = wrapPackage metadata result q.
Proof.
  intros metadata result l1 pkg l2.
  assert (∀ q, q ∈ l2 → pkgID q ≠ pkgID pkg) as Hl2.
  { intros q Hq. by apply elem_of_nil in Hq. }
  split_and!; [reflexivity|exact Hl2|..];
    apply (packageMap_last_wins metadata result l1 l2 pkg eq_refl Hl2).
Defined.

(** X4 at the package of [vulnerable_result]. *)
Lemma vulnerabilities_by_key_witness :
  let metadata := sample_metadata in
  let result := vulnerable_result in
  let k := "A" in
  let X := wrapPackage metadata result (sample_package "A" [] false) in
  packageMap metadata result !! k = Some X
  ∧ ∃ c, pkgComponent X = Done (Some c) ∧
      core.Component.Vulnerabilities c
      = filter (fun v => vulnKey v = k) (types.Result.Vulnerabilities result) ∧
      ∀ v, v ∈ core.Component.Vulnerabilities c
           ↔ v ∈ types.Result.Vulnerabilities result
             ∧ (if decide (types.DetectedVulnerability.PkgID v = "")
                then types.DetectedVulnerability.PkgName v +:+ "@"
                     +:+ types.DetectedVulnerability.InstalledVersion v = k
                else types.DetectedVulnerability.PkgID v = k).
Proof.
  intros metadata result k X.
  assert (packageMap metadata result !! k = Some X) as HX by (vm_compute; reflexivity).
  split; [exact HX|].
  exact (vulnerabilities_by_key metadata result k X HX).
Defined.

(** X5 at a metadata component with two properties. *)
Lemma toCoreComponent_properties_witness :
  let c := sample_component in
  let out :=
    match toCoreComponent c with
    | Done out => out
    | Failed _ => core.Component.zero
    end in
  toCoreComponent c = Done out
  ∧ core.Component.Name out = ftypes.Component.Name c
  ∧ core.Component.Group out = ftypes.Component.Group c
  ∧ core.Component.Type_ out = ftypes.Component.Type_ c
  ∧ core.Component.Version out = ""
  ∧ core.Component.Components out = []
  ∧ (ftypes.Component.PackageURL c = "" → core.Component.PackageURL out = None)
  ∧ Forall2 (fun p q =>
               core.Property.Value q = ftypes.Property.Value p
               ∧ core.Property.Namespace q +:+ core.Property.Name q
                 = ftypes.Property.Name p
               ∧ core.Property.Namespace q
                 = (if HasPrefix (ftypes.Property.Name p) Namespace
                    then Namespace else ""))
            (ftypes.Component.Properties c) (core.Component.Properties out).
Proof.
  intros c out.
  assert (toCoreComponent c = Done out) as Hout by (vm_compute; reflexivity).
  split; [exact Hout|].
  exact (toCoreComponent_properties c out Hout).
Defined.

(** X6 at the report of a file system. *)
Lemma rootComponent_node_witness :
  let r := pair_report in
  let h : heap := [] in
  let a := 0 in
  let h' := (rootComponent r h).2 in
  rootComponent r h = (Done a, h')
  ∧ types.Report.ArtifactType r ≠ ftypes.ArtifactCycloneDX
  ∧ ∃ c, a = length h ∧ h' = h ++ [c]
       ∧ core.Component.Name c = types.Report.ArtifactName r
       ∧ core.Component.Components c = []
       ∧ core.Component.Type_ c
         = match types.Report.ArtifactType r with
           | ftypes.ArtifactContainerImage | ftypes.ArtifactVM =>
               cdx.ComponentTypeContainer
           | ftypes.ArtifactFilesystem | ftypes.ArtifactRepository =>
               cdx.ComponentTypeApplication
           | _ => ""
           end
       ∧ (∃ rest, core.Component.Properties c
                  = mkProp PropertySchemaVersion (Itoa (types.Report.SchemaVersion r))
                    :: rest)
       ∧ (∀ p, p ∈ core.Component.Properties c → core.Property.Value p ≠ "")
       ∧ (∀ v, mkProp PropertyImageID v ∈ core.Component.Properties c
               ↔ types.Report.ArtifactType r = ftypes.ArtifactContainerImage
                 ∧ v = types.Metadata.ImageID (types.Report.Metadata r) ∧ v ≠ "")
       ∧ (∀ v, mkProp PropertySize v ∈ core.Component.Properties c
               ↔ v = Itoa (types.Metadata.Size (types.Report.Metadata r))
                 ∧ types.Metadata.Size (types.Report.Metadata r) ≠ 0%Z).
Proof.
  intros r h a h'.
  assert (rootComponent r h = (Done a, h')) as Hrun by (vm_compute; reflexivity).
  assert (types.Report.ArtifactType r ≠ ftypes.ArtifactCycloneDX) as Hty by done.
  split_and!; [exact Hrun|exact Hty|].
  exact (rootComponent_node r h a h' Hrun Hty).
Defined.


(** X8 at a result of two indirect packages that depend on each other. *)
Lemma indirect_with_parents_dropped_witness :
  let o := range_sorted in
  let fuel := 3 in
  let metadata := sample_metadata in
  let result := indirect_cycle_result in
  let h : heap := [] in
  (∀ pkg, pkg ∈ types.Result.Packages result →
     ftypes.Package.Indirect pkg = true
     ∧ ∃ q, q ∈ types.Result.Packages result
            ∧ ftypes.Package.ID pkg ∈ ftypes.Package.DependsOn q)
  ∧ marshalPackages o fuel metadata result h = Some (Done [], h).
Proof.
  intros o fuel metadata result h.
  assert (∀ pkg, pkg ∈ types.Result.Packages result →
            ftypes.Package.Indirect pkg = true
            ∧ ∃ q, q ∈ types.Result.Packages result
                   ∧ ftypes.Package.ID pkg ∈ ftypes.Package.DependsOn q) as Hall.
  { intros pkg Hin. simpl in Hin. rewrite !elem_of_cons, elem_of_nil in Hin.
    destruct Hin as [->|[->|[]]]; (split; [reflexivity|]).
    - exists (sample_package "B" ["A"] true). split; [|by left].
      simpl. right. by left.
    - exists (sample_package "A" ["B"] true). split; by left. }
  split; [exact Hall|].
  exact (indirect_with_parents_dropped o fuel metadata result h Hall).
Defined.

(** X9 at the report with one result of two packages. *)
Lemma MarshalReport_links_witness :
  let o := fun _ : nat => range_sorted in
  let fuel := 3 in
  let r := pair_report in
  let h : heap := [] in
  let root := 0 in
  let h' := heap_of (MarshalReport o fuel r h) in
  heap_closed h
  ∧ (∀ result, result ∈ types.Report.Results r →
       length (types.Result.Packages result) < fuel)
  ∧ MarshalReport o fuel r h = Some (Done root, h')
  ∧ root = length h ∧ root < length h'
  ∧ (∀ a, a < length h → h' !! a = h !! a)
  ∧ ∀ a c x, root ≤ a → h' !! a = Some c → x ∈ core.Component.Components c →
      ∃ b, x = Some b ∧ root < b < length h'.
Proof.
  intros o fuel r h root h'.
  assert (∀ result, result ∈ types.Report.Results r →
            length (types.Result.Packages result) < fuel) as Hfuel.
  { intros result ->%list_elem_of_singleton. simpl. lia. }
  assert (MarshalReport o fuel r h = Some (Done root, h')) as Hrun
    by (vm_compute; reflexivity).
  split_and!; [exact heap_closed_nil|exact Hfuel|exact Hrun|..];
    apply (MarshalReport_links o fuel r h root h' heap_closed_nil Hfuel Hrun).
Defined.

End MoreSamples.

(** A pin of a [Package.resolved] of version 1, one of version 2 that is
    resolved by its branch, and one without version and branch. *)
Definition nio_pin : swift.Pin.t :=
  swift.Pin.mk "https://github.com/apple/swift-nio.git" ""
    (swift.State.mk "" "2.41.1") 12 20.

Definition branch_pin : swift.Pin.t :=
  swift.Pin.mk "" "https://github.com/element-hq/matrix-ios-sdk"
    (swift.State.mk "develop" "") 21 29.

Definition unresolved_pin : swift.Pin.t :=
  swift.Pin.mk "" "https://github.com/apple/swift-log.git"
    (swift.State.mk "" "") 30 38.

Definition sample_lockFile : swift.LockFile.t :=
  swift.LockFile.mk [nio_pin] [branch_pin; unresolved_pin] 2.

(** Collaborators of the parser for the examples: the ID of a package is
    its name and version joined by an at sign, the decoder yields
    [sample_lockFile], and the sort leaves a list as it is. *)
Definition sample_PackageID (name version : string) : string :=
  name +:+ "@" +:+ version.

Definition sample_Unmarshal (input : string) : outcome swift.LockFile.t :=
  Done sample_lockFile.

Definition sample_sort (libs : list parser_types.Library.t)
    : list parser_types.Library.t := libs.

(** X11 at the address of a repository with scheme and suffix. *)
Lemma libraryName_strips_witness :
  let pin := nio_pin in
  let lockVersion := 1%Z in
  let s := "github.com/apple/swift-nio" in
  HasPrefix s "https://" = false
  ∧ HasSuffix s ".git" = false
  ∧ swift_facts.address pin lockVersion
      ∈ [s; s +:+ ".git"; "https://" +:+ s; "https://" +:+ s +:+ ".git"]
  ∧ swift.libraryName pin lockVersion = s.
Proof.
  intros pin lockVersion s.
  assert (HasPrefix s "https://" = false) as Hpre by reflexivity.
  assert (HasSuffix s ".git" = false) as Hsuf by reflexivity.
  assert (swift_facts.address pin lockVersion
            ∈ [s; s +:+ ".git"; "https://" +:+ s; "https://" +:+ s +:+ ".git"])
    as Haddr.
  { apply (list_elem_of_lookup_2 _ 3). reflexivity. }
  split_and!; [exact Hpre|exact Hsuf|exact Haddr|].
  exact (swift_facts.libraryName_strips pin lockVersion s Hpre Hsuf Haddr).
Defined.

(** X12 at a lock file of version 2 with a pin that has a branch only and a
    pin without version and branch. *)
Lemma Parse_libraries_witness :
  let input := "{}" in
  let lockFile := sample_lockFile in
  let libs :=
    [ parser_types.Library.mk "github.com/element-hq/matrix-ios-sdk@develop"
        "github.com/element-hq/matrix-ios-sdk" "develop"
        [parser_types.Location.mk 21 29] ] in
  (∀ l, sample_sort l ≡ₚ l)
  ∧ sample_Unmarshal input = Done lockFile
  ∧ swift.Parse sample_PackageID sample_sort sample_Unmarshal (Done input) = Done libs
  ∧ libs ≡ₚ swift_facts.libraryOf sample_PackageID (swift.LockFile.Version lockFile)
            <$> filter swift_facts.resolvable (swift_facts.pinsOf lockFile)
  ∧ length libs = length (filter swift_facts.resolvable (swift_facts.pinsOf lockFile))
  ∧ ∀ lib, lib ∈ libs →
      parser_types.Library.Version lib ≠ ""
      ∧ parser_types.Library.ID lib
        = sample_PackageID (parser_types.Library.Name lib)
            (parser_types.Library.Version lib)
      ∧ ∃ pin, pin ∈ swift_facts.pinsOf lockFile
               ∧ parser_types.Library.Name lib
                 = swift.libraryName pin (swift.LockFile.Version lockFile)
               ∧ (parser_types.Library.Version lib
                  = swift.State.Version (swift.Pin.State pin)
                  ∨ swift.State.Version (swift.Pin.State pin) = ""
                    ∧ parser_types.Library.Version lib
                      = swift.State.Branch (swift.Pin.State pin))
               ∧ parser_types.Library.Locations lib
                 = [ {| parser_types.Location.StartLine := swift.Pin.StartLine pin;
                        parser_types.Location.EndLine := swift.Pin.EndLine pin |} ].
Proof.
  intros input lockFile libs.
  assert (∀ l, sample_sort l ≡ₚ l) as Hsort by (intros l; reflexivity).
  assert (sample_Unmarshal input = Done lockFile) as Hdecode by reflexivity.
  assert (swift.Parse sample_PackageID sample_sort sample_Unmarshal (Done input)
          = Done libs) as Hrun by reflexivity.
  split_and!; [exact Hsort|exact Hdecode|exact Hrun|..];
    apply (swift_facts.Parse_libraries sample_PackageID sample_sort sample_Unmarshal
             Hsort input lockFile libs Hdecode Hrun).
Defined.

(** X15 at a line of a Gradle lock file with spaces around it. *)
Lemma lineLibraries_dependency_witness :
  let trim := fun s : string => s in
  let ws1 := "  " in
  let ws2 := String "013" "" in
  let group := "com.example" in
  let artifact := "lib" in
  let version := "1.2.3" in
  let rest := "=compileClasspath,runtimeClasspath" in
  let c0 := "c"%char in
  let c1 := "h"%char in
  let group' := "om.example" in
  let k := 7%Z in
  let dependency := group +:+ ":" +:+ artifact +:+ ":" +:+ version +:+ rest in
  spaces ws1 = true ∧ spaces ws2 = true
  ∧ group = String c0 group' ∧ plain c0 = true ∧ c0 ≠ "#"%char
  ∧ lastByte dependency = Some c1 ∧ plain c1 = true
  ∧ count ":" group = 0 ∧ count ":" artifact = 0
  ∧ count ":" version = 0 ∧ count "=" version = 0 ∧ count ":" rest = 0
  ∧ (rest = "" ∨ (∃ configurations, rest = String "=" configurations))
  ∧ lockfile_facts.lineLibraries trim trim (ws1 +:+ dependency +:+ ws2) k
    = [lockfile_facts.libraryAt group artifact version k].
Proof.
  intros trim ws1 ws2 group artifact version rest c0 c1 group' k dependency.
  assert (spaces ws1 = true) as Hws1 by reflexivity.
  assert (spaces ws2 = true) as Hws2 by reflexivity.
  assert (group = String c0 group') as Hgroup by reflexivity.
  assert (plain c0 = true) as Hc0 by reflexivity.
  assert (c0 ≠ "#"%char) as Hhash by discriminate.
  assert (lastByte dependency = Some c1) as Hlast by reflexivity.
  assert (plain c1 = true) as Hc1 by reflexivity.
  assert (count ":" group = 0) as Hg by reflexivity.
  assert (count ":" artifact = 0) as Ha by reflexivity.
  assert (count ":" version = 0) as Hv by reflexivity.
  assert (count "=" version = 0) as Hve by reflexivity.
  assert (count ":" rest = 0) as Hr by reflexivity.
  assert (rest = "" ∨ (∃ configurations, rest = String "=" configurations)) as Hrest.
  { right. by eexists. }
  split_and!;
    [exact Hws1|exact Hws2|exact Hgroup|exact Hc0|exact Hhash|exact Hlast|exact Hc1
    |exact Hg|exact Ha|exact Hv|exact Hve|exact Hr|exact Hrest|].
  exact (lockfile_facts.lineLibraries_dependency trim trim ws1 ws2 group artifact
           version rest c0 c1 group' k Hws1 Hws2 Hgroup Hc0 Hhash Hlast Hc1
           Hg Ha Hv Hve Hr Hrest).
Defined.

(** X16 at a comment line. *)
Lemma lineLibraries_skipped_witness :
  let trim := fun s : string => s in
  let text := "# This is a Gradle generated file for dependency locking." in
  let k := 1%Z in
  isASCII text = true
  ∧ (lockfile_facts.lineLibraries trim trim text k = []
     ↔ HasPrefix (dropSpaces text) "#" = true ∨ count ":" text ≠ 2)
  ∧ length (lockfile_facts.lineLibraries trim trim text k) ≤ 1.
Proof.
  intros trim text k.
  assert (isASCII text = true) as Htext by reflexivity.
  split; [exact Htext|].
  exact (lockfile_facts.lineLibraries_skipped trim trim text k Htext).
Defined.
